(** * The CDI cloner target ([cmd/cdi-cloner/clonertarget.go])

    A shallow embedding of the cloner target: the header reader
    ([readTotal], [collectTotalSize]), the counting relay reader, the
    progress reporter ([updateProgress]) and the orchestration in [main],
    followed by the properties proved about them.

    Conventions.
    - [uint64] values are integers in [Z]; every place where Go wraps
      around modulo [2^64] is written out with [wrap64].
    - [float64] values are [spec_float]s at precision 53 and maximal
      exponent 1024, i.e. IEEE 754 binary64 with round-to-nearest-even,
      as specified by the standard library's [SpecFloat].
    - An [io.Reader] is a type with a [Read] operation in state-passing
      style: [Read r n] is one call [r.Read(p)] with [len(p) = n]; it
      returns the bytes stored in [p[:n']], the error, and the reader
      after the call.
    - The counter vector [progress] is the one of the Prometheus client
      library, which is outside the sources: as in its
      [prometheus/counter.go], a counter keeps the integral amounts added
      to it in a [uint64] that wraps around and the other amounts in a
      [float64], and reports their sum.
    - The operating system and the collaborators outside this file are an
      explicit environment [env]; the process runs in a small monad [M]
      that threads the process state, records the calls made to the
      outside in a [trace], and distinguishes a function that returns from
      [os.Exit] and from a panic. *)

From Stdlib Require Import ZArith List Lia Bool.
From Stdlib Require Import Strings.Byte Strings.String.
From Stdlib Require Import Floats.SpecFloat.
From stdpp Require Import base gmap strings.

Open Scope Z_scope.

(** ** Errors *)

Inductive error : Type :=
| EOF                     (* io.EOF *)
| ErrNotExist             (* ENOENT, the error os.IsNotExist recognises *)
| ErrOS (msg : string)    (* any other error of the operating system or of a collaborator *)
| ErrShortHeader          (* errors.New("Didn't read all bytes for size header") *)
| ErrSyntax               (* strconv.ErrSyntax, wrapped in a NumError *)
| ErrRange                (* strconv.ErrRange, wrapped in a NumError *)
| ErrBase                 (* strconv: invalid base *)
| ErrMissedFlag.          (* fmt.Errorf("Missed named pipe flag") *)

#[export] Instance error_eq_dec : EqDecision error.
Proof. solve_decision. Defined.

(** [os.IsNotExist]. *)
Definition IsNotExist (err : option error) : bool :=
  match err with
  | Some ErrNotExist => true
  | _ => false
  end.

(** ** Unsigned 64-bit integers *)

Definition maxUint64 : Z := 2 ^ 64 - 1.

Definition wrap64 (z : Z) : Z := z mod 2 ^ 64.

(** ** Byte streams: [io.Reader] *)

Class io_Reader (R : Type) := Read : R -> nat -> (list byte * option error) * R.

(** What a byte source holds in store for the successive [Read] calls: a
    run of bytes that is available together, or an error.  A source whose
    script is used up is at end-of-stream. *)
Inductive chunk : Type :=
| Data (bs : list byte)
| Fail (e : error).

Definition Source : Type := list chunk.

(** One [Read] with a buffer of [cap] bytes returns what is available, up
    to [cap] bytes, and leaves the rest for the next call. *)
Definition Source_Read (s : Source) (cap : nat) : (list byte * option error) * Source :=
  match s with
  | [] => (([], Some EOF), [])
  | Fail e :: rest => (([], Some e), rest)
  | Data bs :: rest =>
      if (length bs <=? cap)%nat then ((bs, None), rest)
      else ((take cap bs, None), Data (drop cap bs) :: rest)
  end.

#[export] Instance Source_Reader : io_Reader Source := Source_Read.

(** All the bytes a source delivers before its first error or its end. *)
Fixpoint content (s : Source) : list byte :=
  match s with
  | [] => []
  | Fail _ :: _ => []
  | Data bs :: rest => bs ++ content rest
  end.

(** A source that ends with end-of-stream and never fails. *)
Fixpoint clean (s : Source) : bool :=
  match s with
  | [] => true
  | Fail _ :: _ => false
  | Data _ :: rest => clean rest
  end.

(** An open file ([*os.File]): its descriptor and what can still be read. *)
Record File : Type := { fd : nat; pending : Source }.

Definition File_Read (f : File) (cap : nat) : (list byte * option error) * File :=
  let '(res, s) := Read (pending f) cap in
  (res, {| fd := fd f; pending := s |}).

#[export] Instance File_Reader : io_Reader File := File_Read.

(** ** [strconv.ParseUint] *)

(** [lower(c) = c | ('x' - 'X')]. *)
Definition lower (c : Z) : Z := Z.lor c 32.

Definition digit_of (b : byte) : option Z :=
  let c := Z.of_N (Byte.to_N b) in
  if (48 <=? c) && (c <=? 57) then Some (c - 48)
  else if (97 <=? lower c) && (lower c <=? 122) then Some (lower c - 97 + 10)
  else None.

(** The digit loop of [ParseUint]: [n] is the value accumulated so far. *)
Fixpoint ParseUint_loop (base cutoff maxVal : Z) (s : list byte) (n : Z)
  : Z * option error :=
  match s with
  | [] => (n, None)
  | c :: s' =>
      match digit_of c with
      | None => (0, Some ErrSyntax)
      | Some d =>
          if base <=? d then (0, Some ErrSyntax)
          else if cutoff <=? n then (maxVal, Some ErrRange)
          else
            let n0 := wrap64 (n * base) in
            let n1 := wrap64 (n0 + d) in
            if (n1 <? n0) || (maxVal <? n1) then (maxVal, Some ErrRange)
            else ParseUint_loop base cutoff maxVal s' n1
      end
  end.

(** [strconv.ParseUint(s, base, bitSize)] for an explicit base between 2
    and 36 and a bit size between 1 and 64, which is how the program calls
    it ([base = 16], [bitSize = 64]); underscores are accepted by Go only
    with [base = 0], whose prefix detection is outside the model and is
    rejected here like any other base out of range. *)
Definition ParseUint (s : list byte) (base bitSize : Z) : Z * option error :=
  match s with
  | [] => (0, Some ErrSyntax)
  | _ =>
      if (2 <=? base) && (base <=? 36) then
        ParseUint_loop base (maxUint64 / base + 1) (2 ^ bitSize - 1) s 0
      else (0, Some ErrBase)
  end.

(** What the spec calls the integer value of a hexadecimal text: the
    digits ['0'-'9'], ['a'-'f'], ['A'-'F'] read in base 16, most
    significant first. *)
Definition hex_digit (b : byte) : option Z :=
  let c := Z.of_N (Byte.to_N b) in
  if (48 <=? c) && (c <=? 57) then Some (c - 48)
  else if (97 <=? c) && (c <=? 102) then Some (c - 87)
  else if (65 <=? c) && (c <=? 70) then Some (c - 55)
  else None.

Definition is_hex (b : byte) : bool :=
  match hex_digit b with Some _ => true | None => false end.

Definition hex_value (s : list byte) : Z :=
  fold_left (fun acc b => 16 * acc + default 0 (hex_digit b)) s 0.

(** The hexadecimal digit of a value below 16, in lower or upper case, and
    the text of [width] digits of a number, most significant digit first
    (what [%016x] and [%016X] print for [width = 16]). *)
Definition hex_char (upper : bool) (d : Z) : byte :=
  nth (Z.to_nat d)
    (list_byte_of_string (if upper then "0123456789ABCDEF" else "0123456789abcdef"))
    "0"%byte.

Fixpoint to_hex (upper : bool) (width : nat) (n : Z) : list byte :=
  match width with
  | O => []
  | S w => to_hex upper w (n / 16) ++ [hex_char upper (n mod 16)]
  end.

(** ** The counting relay reader *)

(** Modelled from the spec: [util.CountingReader] lives in [pkg/util],
    which is not part of the sources at hand.  Following section 4.2 it
    decorates a byte-stream source: each read of [n] bytes adds [n] to the
    counter [Current], and data and errors of the underlying stream pass
    through unchanged. *)
Record CountingReader (R : Type) : Type :=
  { Reader : R; Current : Z }.
Arguments Reader {R} _.
Arguments Current {R} _.

(** Modelled from the spec: the [Read] of [util.CountingReader], a
    pass-through that adds the number of bytes read to [Current], a
    [uint64]. *)
Definition CountingReader_Read {R} `{io_Reader R} (r : CountingReader R) (cap : nat)
  : (list byte * option error) * CountingReader R :=
  let '((bs, err), r') := Read (Reader r) cap in
  ((bs, err), {| Reader := r'; Current := wrap64 (Current r + Z.of_nat (length bs)) |}).

#[export] Instance CountingReader_Reader {R} `{io_Reader R} : io_Reader (CountingReader R) :=
  CountingReader_Read.

(** [type prometheusProgressReader struct { util.CountingReader; total uint64 }];
    [Read] is the promoted method of the embedded reader. *)
Record prometheusProgressReader : Type :=
  { counting : CountingReader File; total : Z }.

Definition prometheusProgressReader_Read (r : prometheusProgressReader) (cap : nat)
  : (list byte * option error) * prometheusProgressReader :=
  let '(res, c) := Read (counting r) cap in
  (res, {| counting := c; total := total r |}).

#[export] Instance prometheusProgressReader_Reader : io_Reader prometheusProgressReader :=
  prometheusProgressReader_Read.

(** A consumer that reads its source until the source reports an error
    (end-of-stream included), one [Read] per buffer size in [bufs].  It
    returns the bytes received, in the order received, the error that
    stopped it ([None] when [bufs] ran out first) and the reader. *)
Fixpoint drain {R} `{io_Reader R} (bufs : list nat) (r : R)
  : (list byte * option error) * R :=
  match bufs with
  | [] => (([], None), r)
  | cap :: bufs' =>
      let '((bs, err), r') := Read r cap in
      match err with
      | Some e => ((bs, Some e), r')
      | None =>
          let '((rest, err'), r'') := drain bufs' r' in
          ((bs ++ rest, err'), r'')
      end
  end.

(** ** binary64 arithmetic *)

Definition prec : Z := 53.
Definition emax : Z := 1024.

(** [float64(n)] for an integer [n]. *)
Definition float64 (n : Z) : spec_float := binary_normalize prec emax n 0 false.

Definition fadd : spec_float -> spec_float -> spec_float := SFadd prec emax.
Definition fsub : spec_float -> spec_float -> spec_float := SFsub prec emax.
Definition fmul : spec_float -> spec_float -> spec_float := SFmul prec emax.
Definition fdiv : spec_float -> spec_float -> spec_float := SFdiv prec emax.

(** The constant [100.0]. *)
Definition hundred : spec_float := S754_finite false 7036874417766400 (-46).

Definition fzero : spec_float := S754_zero false.

(** ** The counter of the Prometheus client *)

(** A counter of [github.com/prometheus/client_golang]
    ([prometheus/counter.go], a library outside the sources at hand):
    what was added in integral amounts, a [uint64] that wraps around, and
    what was added otherwise, a [float64]. *)
Record counter : Type := { valBits : spec_float; valInt : Z }.

Definition counter_zero : counter := {| valBits := fzero; valInt := 0 |}.

(** The value [Write] reports: [fval + float64(ival)]. *)
Definition counter_get (c : counter) : spec_float :=
  fadd (valBits c) (float64 (valInt c)).

(** [uint64(v)] where the Go specification defines it: the fraction is
    discarded, and what remains has to be a [uint64]. *)
Definition truncate (v : spec_float) : option Z :=
  match v with
  | S754_zero _ => Some 0
  | S754_finite s m e =>
      let n := if 0 <=? e then Zpos m * 2 ^ e else Zpos m / 2 ^ (- e) in
      if n =? 0 then Some 0
      else if s then None
      else if n <=? maxUint64 then Some n
      else None
  | _ => None
  end.

(** [Add(v)] on a counter, for [v] not below zero and [ival = uint64(v)]:
    [if float64(ival) == v { valInt += ival } else { valBits += v }]. *)
Definition counter_add (ival : Z) (v : spec_float) (c : counter) : counter :=
  if SFeqb (float64 ival) v
  then {| valBits := valBits c; valInt := wrap64 (valInt c + ival) |}
  else {| valBits := fadd (valBits c) v; valInt := valInt c |}.

(** ** The process and its environment *)

(** [v1.PersistentVolumeMode]. *)
Inductive PersistentVolumeMode : Type :=
| PersistentVolumeBlock
| PersistentVolumeFilesystem.

(** The two payload writers of [pkg/util] are collaborators: they are
    handed the reader and a destination, read from the reader as they
    please and return an error or [nil]. *)
Definition consumer : Type :=
  prometheusProgressReader -> string -> option error * prometheusProgressReader.

Record env : Type :=
  { arg_pipedir : option string;            (* the value given to -pipedir, if any *)
    getenv_OWNER_UID : string;              (* util.ParseEnvVar(common.OwnerUID, false) *)
    ImporterWriteBlockPath : string;        (* common.ImporterWriteBlockPath *)
    TempDir_result : string + error;        (* ioutil.TempDir("", "certsdir") *)
    OpenFile_result : string -> nat -> Source + error;
                                            (* the k-th os.OpenFile of a path: what the
                                               writer side supplies during that session *)
    Stat_result : string -> option error;   (* the error of os.Stat *)
    StreamDataToFile : consumer;            (* util.StreamDataToFile *)
    UnArchiveTar : consumer;                (* util.UnArchiveTar *)
    uint64_out_of_range : spec_float -> Z }.
                                            (* uint64(v) for a float64 v that is no
                                               uint64: the Go specification leaves
                                               the result to the implementation *)

(** [uint64(v)] for a [float64] [v]. *)
Definition uint64_of_float64 (e : env) (v : spec_float) : Z :=
  match truncate v with
  | Some n => n
  | None => wrap64 (uint64_out_of_range e v)
  end.

Inductive logmsg : Type :=
| LogText (s : string)
| LogError (e : error)
| LogSize (n : Z)
| LogProgress (p : spec_float).

(** The calls the process makes to the outside, in the order made. *)
Inductive event : Type :=
| EvLog (v : option Z) (m : logmsg)     (* klog.V(v).Info.. ; klog.Errorf for [None] *)
| EvFlush                               (* klog.Flush *)
| EvTempDir (r : string + error)
| EvRemoveAll (dir : string)
| EvPrometheusEndpoint (dir : string)
| EvOpen (path : string) (r : nat + error)
| EvClose (h : nat)
| EvStat (path : string)
| EvGo                                  (* go promReader.timedUpdateProgress() *)
| EvStreamDataToFile (src : prometheusProgressReader) (path : string)
| EvUnArchiveTar (src : prometheusProgressReader) (dir : string)
| EvMetricWrite (label : string)
| EvMetricAdd (label : string) (delta : spec_float)
| EvExit (code : Z)
| EvPanic (e : error).

(** The state of the process: its package-level variables, what it holds
    of the operating system, and the trace. *)
Record state : Type :=
  { os : env;
    namedPipe : string;
    ownerUID : string;
    progress : gmap string counter;       (* the children of the counter vector *)
    trace : list event;
    opens : nat;                          (* number of os.OpenFile calls so far *)
    open_files : gset nat;                (* descriptors open at the moment *)
    temp_dirs : gset string }.            (* temporary directories in existence *)

Definition initial (e : env) : state :=
  {| os := e; namedPipe := ""; ownerUID := ""; progress := ∅; trace := [];
     opens := 0; open_files := ∅; temp_dirs := ∅ |}.

(** *** Updates of the process state *)

Definition with_trace (f : list event -> list event) (st : state) : state :=
  {| os := os st; namedPipe := namedPipe st; ownerUID := ownerUID st;
     progress := progress st; trace := f (trace st); opens := opens st;
     open_files := open_files st; temp_dirs := temp_dirs st |}.

Definition with_progress (f : gmap string counter -> gmap string counter)
  (st : state) : state :=
  {| os := os st; namedPipe := namedPipe st; ownerUID := ownerUID st;
     progress := f (progress st); trace := trace st; opens := opens st;
     open_files := open_files st; temp_dirs := temp_dirs st |}.

Definition with_open_files (n : nat) (f : gset nat -> gset nat) (st : state) : state :=
  {| os := os st; namedPipe := namedPipe st; ownerUID := ownerUID st;
     progress := progress st; trace := trace st; opens := n;
     open_files := f (open_files st); temp_dirs := temp_dirs st |}.

Definition with_temp_dirs (f : gset string -> gset string) (st : state) : state :=
  {| os := os st; namedPipe := namedPipe st; ownerUID := ownerUID st;
     progress := progress st; trace := trace st; opens := opens st;
     open_files := open_files st; temp_dirs := f (temp_dirs st) |}.

Definition with_globals (pipe owner : string) (st : state) : state :=
  {| os := os st; namedPipe := pipe; ownerUID := owner;
     progress := progress st; trace := trace st; opens := opens st;
     open_files := open_files st; temp_dirs := temp_dirs st |}.

(** How a Go function body ends: it returns, the process exits through
    [os.Exit], or it panics. *)
Inductive outcome (A : Type) : Type :=
| Returned (a : A)
| Exited (code : Z)
| Panicked (e : error).
Arguments Returned {A} _.
Arguments Exited {A} _.
Arguments Panicked {A} _.

Definition M (A : Type) : Type := state -> outcome A * state.

#[export] Instance M_ret : MRet M := fun A a st => (Returned a, st).

#[export] Instance M_bind : MBind M := fun A B k m st =>
  match m st with
  | (Returned a, st') => k a st'
  | (Exited c, st') => (Exited c, st')
  | (Panicked e, st') => (Panicked e, st')
  end.

Definition gets {A} (f : state -> A) : M A := fun st => (Returned (f st), st).

Definition modify (f : state -> state) : M unit := fun st => (Returned tt, f st).

Definition emit (e : event) : M unit := modify (with_trace (fun t => t ++ [e])).

(** [os.Exit(code)]: the process ends at once; deferred calls do not run. *)
Definition os_Exit {A} (code : Z) : M A := fun st =>
  match emit (EvExit code) st with
  | (_, st') => (Exited code, st')
  end.

Definition panic {A} (e : error) : M A := fun st =>
  match emit (EvPanic e) st with
  | (_, st') => (Panicked e, st')
  end.

(** [defer d] followed by the rest of the function body: [d] runs when the
    body returns and when it panics, and not when the process exits. *)
Definition defer {A} (d : M unit) (body : M A) : M A := fun st =>
  match body st with
  | (Returned a, st') =>
      match d st' with
      | (Returned _, st'') => (Returned a, st'')
      | (Exited c, st'') => (Exited c, st'')
      | (Panicked e, st'') => (Panicked e, st'')
      end
  | (Exited c, st') => (Exited c, st')
  | (Panicked e, st') =>
      match d st' with
      | (Exited c, st'') => (Exited c, st'')
      | (Panicked e', st'') => (Panicked e', st'')
      | (Returned _, st'') => (Panicked e, st'')
      end
  end.

(** The exit status of the process: 0 when [main] returns, the argument of
    [os.Exit], and 2 for a panic that nothing recovers. *)
Definition exit_status {A} (o : outcome A) : Z :=
  match o with
  | Returned _ => 0
  | Exited c => c
  | Panicked _ => 2
  end.

(** *** Logging *)

Definition klog_V_Info (v : Z) (m : logmsg) : M unit := emit (EvLog (Some v) m).
Definition klog_Errorf (m : logmsg) : M unit := emit (EvLog None m).
Definition klog_Flush : M unit := emit EvFlush.

(** *** Files and directories *)

Definition ioutil_TempDir : M (string + error) := fun st =>
  let r := TempDir_result (os st) in
  let st' := match r with
             | inl d => with_temp_dirs (fun ds => ds ∪ {[ d ]}) st
             | inr _ => st
             end in
  (Returned r, with_trace (fun t => t ++ [EvTempDir r]) st').

Definition os_RemoveAll (d : string) : M unit := fun st =>
  (Returned tt,
   with_trace (fun t => t ++ [EvRemoveAll d])
     (with_temp_dirs (fun ds => ds ∖ {[ d ]}) st)).

(** [os.OpenFile(path, os.O_RDONLY, os.ModeNamedPipe)]: every successful
    call yields a new open file, named by the number of the call. *)
Definition os_OpenFile (path : string) : M (File + error) := fun st =>
  let k := opens st in
  match OpenFile_result (os st) path k with
  | inl src =>
      (Returned (inl {| fd := k; pending := src |}),
       with_trace (fun t => t ++ [EvOpen path (inl k)])
         (with_open_files (S k) (fun fs => fs ∪ {[ k ]}) st))
  | inr e =>
      (Returned (inr e),
       with_trace (fun t => t ++ [EvOpen path (inr e)])
         (with_open_files (S k) (fun fs => fs) st))
  end.

Definition File_Close (f : File) : M unit := fun st =>
  (Returned tt,
   with_trace (fun t => t ++ [EvClose (fd f)])
     (with_open_files (opens st) (fun fs => fs ∖ {[ fd f ]}) st)).

Definition os_Stat (path : string) : M (option error) := fun st =>
  (Returned (Stat_result (os st) path), with_trace (fun t => t ++ [EvStat path]) st).

(** *** The collaborators of [pkg/util] *)

(** Modelled from the spec: [prometheusutil.StartPrometheusEndpoint] lives
    in [pkg/util/prometheus], which is not part of the sources at hand.
    By section 1 the transport of the metrics endpoint is a collaborator:
    the call sets the endpoint up on the certificates directory and
    returns; it has no result. *)
Definition StartPrometheusEndpoint (certsDirectory : string) : M unit :=
  emit (EvPrometheusEndpoint certsDirectory).

Definition util_StreamDataToFile (r : prometheusProgressReader) (path : string)
  : M (option error) := fun st =>
  (Returned (fst (StreamDataToFile (os st) r path)),
   with_trace (fun t => t ++ [EvStreamDataToFile r path]) st).

Definition util_UnArchiveTar (r : prometheusProgressReader) (dir : string)
  : M (option error) := fun st =>
  (Returned (fst (UnArchiveTar (os st) r dir)),
   with_trace (fun t => t ++ [EvUnArchiveTar r dir]) st).

(** *** The counter vector [progress] *)

(** The value of the child counter of a label; a label without a child
    reads as a new counter. *)
Definition Counter_value (l : string) (reg : gmap string counter) : spec_float :=
  counter_get (default counter_zero (reg !! l)).

(** [progress.WithLabelValues(l)]: the child counter of the label, created
    at zero when there is none yet. *)
Definition WithLabelValues (l : string) : M unit :=
  modify (with_progress (fun reg =>
    match reg !! l with
    | Some _ => reg
    | None => <[ l := counter_zero ]> reg
    end)).

(** [.Write(metric)] followed by reading [*metric.Counter.Value]. *)
Definition Counter_Write (l : string) : M spec_float :=
  WithLabelValues l;;
  emit (EvMetricWrite l);;
  gets (fun st => Counter_value l (progress st)).

(** [.Add(v)] of the Prometheus client: it panics when [v < 0];
    otherwise an integral [v] goes to the integer part of the counter and
    any other [v] to its float part. *)
Definition Counter_Add (l : string) (v : spec_float) : M unit :=
  WithLabelValues l;;
  if SFltb v fzero then panic (ErrOS "counter cannot decrease in value")
  else
    emit (EvMetricAdd l v);;
    ival ← gets (fun st => uint64_of_float64 (os st) v);
    modify (with_progress (fun reg =>
      <[ l := counter_add ival v (default counter_zero (reg !! l)) ]> reg)).

(** ** The program *)

Definition maxSizeLength : Z := 20.

(** [init]: the flag [-pipedir] with its default, and the owner. *)
Definition init : M unit := fun st =>
  (Returned tt,
   with_progress (fun _ => ∅)
     (with_globals (default "nopipedir" (arg_pipedir (os st)))
                   (getenv_OWNER_UID (os st)) st)).

(** [readTotal]: read total file size from reader. *)
Definition readTotal {R} `{io_Reader R} (r : R) : M ((Z * option error) * R) :=
  let b := replicate 16 "000"%byte in
  let '((bs, err), r') := Read r (length b) in
  let n := length bs in
  let b := take (length b) (bs ++ drop n b) in
  match err with
  | Some e =>
      klog_Errorf (LogError e);;
      mret ((0, Some e), r')
  | None =>
      if negb (n =? length b)%nat then mret ((0, Some ErrShortHeader), r')
      else mret (ParseUint b 16 64, r')
  end.

Definition collectTotalSize : M (Z * option error) :=
  klog_V_Info 3 (LogText "Reading total size");;
  pipe ← gets namedPipe;
  r ← os_OpenFile pipe;
  match r with
  | inr err => mret (0, Some err)
  | inl out =>
      defer (File_Close out)
        ('(res, _) ← readTotal out;
         mret res)
  end.

Definition updateProgress (r : prometheusProgressReader) : M unit :=
  if 0 <? total r then
    let currentProgress :=
      fmul (fdiv (float64 (Current (counting r))) (float64 (total r))) hundred in
    owner ← gets ownerUID;
    value ← Counter_Write owner;
    (if SFltb value currentProgress
     then Counter_Add owner (fsub currentProgress value)
     else mret tt);;
    klog_V_Info 1 (LogProgress currentProgress)
  else mret tt.

(** The reader at the moment of a tick: the main path has advanced
    [Current] to [c] in the meantime. *)
Definition at_count (r : prometheusProgressReader) (c : Z) : prometheusProgressReader :=
  {| counting := {| Reader := Reader (counting r); Current := c |}; total := total r |}.

(** [timedUpdateProgress] loops for ever, sleeping a second before each
    update; these are its first iterations, one for each value of the
    byte counter the successive ticks find. *)
Fixpoint timedUpdateProgress (r : prometheusProgressReader) (counts : list Z) : M unit :=
  match counts with
  | [] => mret tt
  | c :: counts' =>
      updateProgress (at_count r c);;
      timedUpdateProgress r counts'
  end.

Definition main : M unit :=
  defer klog_Flush
    (klog_V_Info 1 (LogText "Starting cloner target");;
     tmp ← ioutil_TempDir;
     match tmp with
     | inr err => panic err
     | inl certsDirectory =>
         defer (os_RemoveAll certsDirectory)
           (StartPrometheusEndpoint certsDirectory;;
            pipe ← gets namedPipe;
            (if String.eqb pipe "nopipedir"
             then klog_Errorf (LogError ErrMissedFlag);; os_Exit 1
             else mret tt);;
            '(total, err) ← collectTotalSize;
            match err with
            | Some e => klog_Errorf (LogError e);; os_Exit 1
            | None =>
                klog_V_Info 3 (LogSize total);;
                r ← os_OpenFile pipe;
                match r with
                | inr e => klog_Errorf (LogError e);; os_Exit 1
                | inl out =>
                    defer (File_Close out)
                      (let promReader :=
                         {| counting := {| Reader := out; Current := 0 |};
                            total := total |} in
                       emit EvGo;;
                       path ← gets (fun st => ImporterWriteBlockPath (os st));
                       st ← os_Stat path;
                       let volumeMode :=
                         if IsNotExist st then PersistentVolumeFilesystem
                         else PersistentVolumeBlock in
                       err ← match volumeMode with
                             | PersistentVolumeBlock =>
                                 klog_V_Info 3 (LogText "Writing data to block device");;
                                 util_StreamDataToFile promReader path
                             | PersistentVolumeFilesystem =>
                                 klog_V_Info 3 (LogText "Writing data to file system");;
                                 util_UnArchiveTar promReader "."
                             end;
                       match err with
                       | Some e => klog_Errorf (LogError e);; os_Exit 1
                       | None => klog_V_Info 1 (LogText "clone complete")
                       end)
                end
            end)
     end).

(** The process: package initialisation, then [main].  This is the main
    goroutine; the ticks of the reporter that [main] starts with its [go]
    statement run beside it and are [timedUpdateProgress]: what they call
    and what they do to [progress] is not part of the trace and of the
    state of [process]. *)
Definition process : M unit := init;; main.

Definition run (e : env) : outcome unit * state := process (initial e).

(** What [readTotal] returns and what it logs, without the monad. *)
Definition readTotal_result {R} `{io_Reader R} (r : R) : (Z * option error) * R :=
  let '((bs, err), r') := Read r 16 in
  match err with
  | Some e => ((0, Some e), r')
  | None =>
      if negb (length bs =? 16)%nat then ((0, Some ErrShortHeader), r')
      else if forallb is_hex bs then ((hex_value bs, None), r')
      else ((0, Some ErrSyntax), r')
  end.

Definition readTotal_log {R} `{io_Reader R} (r : R) : list event :=
  match snd (fst (Read r 16)) with
  | Some e => [EvLog None (LogError e)]
  | None => []
  end.

(** *** What a run shows *)

(** The value of the flag after [init]. *)
Definition pipe_of (e : env) : string := default "nopipedir" (arg_pipedir e).

(** The file of the header phase and the reader of the payload phase. *)
Definition header_file (src : Source) : File := {| fd := 0; pending := src |}.

Definition payload_reader (size : Z) (src : Source) : prometheusProgressReader :=
  {| counting := {| Reader := {| fd := 1; pending := src |}; Current := 0 |};
     total := size |}.

(** The call to the writer that the marker selects, and what it returns. *)
Definition dispatch_event (e : env) (r : prometheusProgressReader) : event :=
  if IsNotExist (Stat_result e (ImporterWriteBlockPath e))
  then EvUnArchiveTar r "."
  else EvStreamDataToFile r (ImporterWriteBlockPath e).

Definition dispatch_log (e : env) : event :=
  if IsNotExist (Stat_result e (ImporterWriteBlockPath e))
  then EvLog (Some 3) (LogText "Writing data to file system")
  else EvLog (Some 3) (LogText "Writing data to block device").

Definition dispatch_result (e : env) (r : prometheusProgressReader) : option error :=
  if IsNotExist (Stat_result e (ImporterWriteBlockPath e))
  then fst (UnArchiveTar e r ".")
  else fst (StreamDataToFile e r (ImporterWriteBlockPath e)).

Definition startup (d : string) : list event :=
  [EvLog (Some 1) (LogText "Starting cloner target"); EvTempDir (inl d);
   EvPrometheusEndpoint d].

Definition header_phase (e : env) (src : Source) : list event :=
  [EvLog (Some 3) (LogText "Reading total size"); EvOpen (pipe_of e) (inl 0%nat)]
  ++ readTotal_log (header_file src) ++ [EvClose 0].

Definition payload_phase (e : env) (size : Z) (src : Source) : list event :=
  [EvLog (Some 3) (LogSize size); EvOpen (pipe_of e) (inl 1%nat); EvGo;
   EvStat (ImporterWriteBlockPath e); dispatch_log e;
   dispatch_event e (payload_reader size src)].

Definition fatal (err : error) : list event :=
  [EvLog None (LogError err); EvExit 1].

(** The runs of the process, path by path: how [main] ends, the trace, and
    the descriptors and temporary directories left behind. *)
Inductive path (e : env) : outcome unit -> list event -> gset nat -> gset string -> Prop :=
| path_tempdir (err : error) :
    TempDir_result e = inr err ->
    path e (Panicked err)
      [EvLog (Some 1) (LogText "Starting cloner target"); EvTempDir (inr err);
       EvPanic err; EvFlush] ∅ ∅
| path_flag (d : string) :
    TempDir_result e = inl d ->
    pipe_of e = "nopipedir" ->
    path e (Exited 1) (startup d ++ fatal ErrMissedFlag) ∅ {[ d ]}
| path_header_open (d : string) (err : error) :
    TempDir_result e = inl d ->
    pipe_of e <> "nopipedir" ->
    OpenFile_result e (pipe_of e) 0 = inr err ->
    path e (Exited 1)
      (startup d ++ [EvLog (Some 3) (LogText "Reading total size");
                     EvOpen (pipe_of e) (inr err)] ++ fatal err) ∅ {[ d ]}
| path_header_read (d : string) (src : Source) (v : Z) (err : error) (f : File) :
    TempDir_result e = inl d ->
    pipe_of e <> "nopipedir" ->
    OpenFile_result e (pipe_of e) 0 = inl src ->
    readTotal_result (header_file src) = ((v, Some err), f) ->
    path e (Exited 1) (startup d ++ header_phase e src ++ fatal err) ∅ {[ d ]}
| path_payload_open (d : string) (src : Source) (size : Z) (f : File) (err : error) :
    TempDir_result e = inl d ->
    pipe_of e <> "nopipedir" ->
    OpenFile_result e (pipe_of e) 0 = inl src ->
    readTotal_result (header_file src) = ((size, None), f) ->
    OpenFile_result e (pipe_of e) 1 = inr err ->
    path e (Exited 1)
      (startup d ++ header_phase e src ++
       [EvLog (Some 3) (LogSize size); EvOpen (pipe_of e) (inr err)] ++ fatal err)
      ∅ {[ d ]}
| path_relay (d : string) (src : Source) (size : Z) (f : File) (src' : Source)
    (err : error) :
    TempDir_result e = inl d ->
    pipe_of e <> "nopipedir" ->
    OpenFile_result e (pipe_of e) 0 = inl src ->
    readTotal_result (header_file src) = ((size, None), f) ->
    OpenFile_result e (pipe_of e) 1 = inl src' ->
    dispatch_result e (payload_reader size src') = Some err ->
    path e (Exited 1)
      (startup d ++ header_phase e src ++ payload_phase e size src' ++ fatal err)
      {[ 1%nat ]} {[ d ]}
| path_complete (d : string) (src : Source) (size : Z) (f : File) (src' : Source) :
    TempDir_result e = inl d ->
    pipe_of e <> "nopipedir" ->
    OpenFile_result e (pipe_of e) 0 = inl src ->
    readTotal_result (header_file src) = ((size, None), f) ->
    OpenFile_result e (pipe_of e) 1 = inl src' ->
    dispatch_result e (payload_reader size src') = None ->
    path e (Returned tt)
      (startup d ++ header_phase e src ++ payload_phase e size src' ++
       [EvLog (Some 1) (LogText "clone complete"); EvClose 1; EvRemoveAll d; EvFlush])
      ∅ ∅.

(** The events on the named pipe and on the files opened from it. *)
Definition is_channel_event (ev : event) : bool :=
  match ev with
  | EvOpen _ _ | EvClose _ | EvStreamDataToFile _ _ | EvUnArchiveTar _ _ => true
  | _ => false
  end.

Definition channel_events (t : list event) : list event :=
  List.filter is_channel_event t.

(** The calls to the two payload writers. *)
Definition is_consumer_event (ev : event) : bool :=
  match ev with
  | EvStreamDataToFile _ _ | EvUnArchiveTar _ _ => true
  | _ => false
  end.

Definition consumer_events (t : list event) : list event :=
  List.filter is_consumer_event t.

Definition is_open_event (ev : event) : bool :=
  match ev with
  | EvOpen _ _ => true
  | _ => false
  end.

(** The deferred calls of [main], the steps that prepare the dispatch, and
    the calls on the counter vector. *)
Definition is_deferred_event (ev : event) : bool :=
  match ev with
  | EvFlush | EvRemoveAll _ | EvClose 1 => true
  | _ => false
  end.

Definition is_dispatch_step (ev : event) : bool :=
  match ev with
  | EvGo | EvStat _ => true
  | _ => false
  end.

Definition is_metric_event (ev : event) : bool :=
  match ev with
  | EvMetricWrite _ | EvMetricAdd _ _ => true
  | _ => false
  end.

(** The descriptors held along a trace: [held] are those open before
    it, [most] the largest number held at once so far.  There is no
    result when the trace opens a descriptor that is held or closes one
    that is not. *)
Fixpoint descriptors (t : list event) (held : list nat) (most : nat)
  : option (list nat * nat) :=
  match t with
  | [] => Some (held, most)
  | EvOpen _ (inl k) :: t' =>
      if existsb (Nat.eqb k) held then None
      else descriptors t' (k :: held) (Nat.max most (S (length held)))
  | EvClose k :: t' =>
      if existsb (Nat.eqb k) held
      then descriptors t' (List.filter (fun h => negb (Nat.eqb k h)) held) most
      else None
  | _ :: t' => descriptors t' held most
  end.

(** The first fatal condition of a run that got past its start-up, in the
    order of section 7: the missing parameter, an error opening the
    channel, a header error, an error of the relay. *)
Definition fatal_condition (e : env) : option error :=
  if String.eqb (pipe_of e) "nopipedir" then Some ErrMissedFlag
  else
    match OpenFile_result e (pipe_of e) 0 with
    | inr err => Some err
    | inl src =>
        match readTotal_result (header_file src) with
        | ((_, Some err), _) => Some err
        | ((size, None), _) =>
            match OpenFile_result e (pipe_of e) 1 with
            | inr err => Some err
            | inl src' => dispatch_result e (payload_reader size src')
            end
        end
    end.

(** The same environment with another command line. *)
Definition with_pipedir (arg : option string) (e : env) : env :=
  {| arg_pipedir := arg; getenv_OWNER_UID := getenv_OWNER_UID e;
     ImporterWriteBlockPath := ImporterWriteBlockPath e;
     TempDir_result := TempDir_result e; OpenFile_result := OpenFile_result e;
     Stat_result := Stat_result e; StreamDataToFile := StreamDataToFile e;
     UnArchiveTar := UnArchiveTar e;
     uint64_out_of_range := uint64_out_of_range e |}.

(** *** Sample environments *)

Definition header_1024 : list byte := list_byte_of_string "0000000000000400".

(** A writer that relays all it reads, 4 KiB at a time, to a destination
    that accepts everything. *)
Definition relay_all : consumer := fun r _ =>
  let '((_, err), r') := drain (replicate 64 4096%nat) r in
  (match err with
   | Some EOF => None
   | Some err => Some err
   | None => Some (ErrOS "unfinished")
   end, r').

(** A writer whose destination fails. *)
Definition relay_fails : consumer := fun r _ => (Some (ErrOS "write failed"), r).

(** A clone of 1024 bytes through the pipe [/tmp/clone.pipe], with the
    marker of a block device absent. *)
Definition sample_env : env :=
  {| arg_pipedir := Some "/tmp/clone.pipe";
     getenv_OWNER_UID := "8f1c";
     ImporterWriteBlockPath := "/dev/cdi-block-volume";
     TempDir_result := inl "/tmp/certsdir042";
     OpenFile_result := fun _ k =>
       match k with
       | O => inl [Data header_1024]
       | _ => inl [Data (replicate 1024 "a"%byte)]
       end;
     Stat_result := fun _ => Some ErrNotExist;
     StreamDataToFile := relay_all;
     UnArchiveTar := relay_all;
     uint64_out_of_range := fun _ => 0 |}.

(** The same clone onto a block device that fails. *)
Definition failing_device_env : env :=
  {| arg_pipedir := arg_pipedir sample_env;
     getenv_OWNER_UID := getenv_OWNER_UID sample_env;
     ImporterWriteBlockPath := ImporterWriteBlockPath sample_env;
     TempDir_result := TempDir_result sample_env;
     OpenFile_result := OpenFile_result sample_env;
     Stat_result := fun _ => None;
     StreamDataToFile := relay_fails;
     UnArchiveTar := relay_all;
     uint64_out_of_range := uint64_out_of_range sample_env |}.

(** A producer that closes the pipe after ten bytes of header. *)
Definition short_header_env : env :=
  {| arg_pipedir := arg_pipedir sample_env;
     getenv_OWNER_UID := getenv_OWNER_UID sample_env;
     ImporterWriteBlockPath := ImporterWriteBlockPath sample_env;
     TempDir_result := TempDir_result sample_env;
     OpenFile_result := fun _ _ => inl [Data (take 10 header_1024)];
     Stat_result := Stat_result sample_env;
     StreamDataToFile := relay_all;
     UnArchiveTar := relay_all;
     uint64_out_of_range := uint64_out_of_range sample_env |}.

(** No temporary directory can be created. *)
Definition no_tempdir_env : env :=
  {| arg_pipedir := arg_pipedir sample_env;
     getenv_OWNER_UID := getenv_OWNER_UID sample_env;
     ImporterWriteBlockPath := ImporterWriteBlockPath sample_env;
     TempDir_result := inr (ErrOS "no space left on device");
     OpenFile_result := OpenFile_result sample_env;
     Stat_result := Stat_result sample_env;
     StreamDataToFile := relay_all;
     UnArchiveTar := relay_all;
     uint64_out_of_range := uint64_out_of_range sample_env |}.

(** The marker cannot be inspected. *)
Definition denied_marker_env : env :=
  {| arg_pipedir := arg_pipedir sample_env;
     getenv_OWNER_UID := getenv_OWNER_UID sample_env;
     ImporterWriteBlockPath := ImporterWriteBlockPath sample_env;
     TempDir_result := TempDir_result sample_env;
     OpenFile_result := OpenFile_result sample_env;
     Stat_result := fun _ => Some (ErrOS "permission denied");
     StreamDataToFile := relay_all;
     UnArchiveTar := relay_all;
     uint64_out_of_range := uint64_out_of_range sample_env |}.

(** A header that arrives in two halves, and a pipe closed at once. *)
Definition split_header : Source :=
  [Data (take 8 header_1024); Data (drop 8 header_1024)].

Definition closed_pipe : Source := [].

(** The trace of the process started without [-pipedir]. *)
Definition leaked_tempdir_trace : list event :=
  [EvLog (Some 1) (LogText "Starting cloner target");
   EvTempDir (inl "/tmp/certsdir042");
   EvPrometheusEndpoint "/tmp/certsdir042";
   EvLog None (LogError ErrMissedFlag);
   EvExit 1].

(** *** Facts about binary64 numbers used in the proofs *)

(** What rounding to nearest makes of the mantissa [m1] truncated at the
    exponent [E]: zero, the mantissa or its successor at that exponent,
    the carry into the next exponent, or an overflow. *)
Inductive rounded (sx : bool) (m1 E : Z) : spec_float -> Prop :=
| rounded_zero :
    m1 = 0 -> rounded sx m1 E (S754_zero sx)
| rounded_same (m : positive) :
    m1 <= Zpos m <= m1 + 1 ->
    bounded prec emax m E = true ->
    rounded sx m1 E (S754_finite sx m E)
| rounded_carry (m : positive) :
    m1 + 1 = 2 ^ 53 ->
    Zpos m = 2 ^ 52 ->
    bounded prec emax m (E + 1) = true ->
    rounded sx m1 E (S754_finite sx m (E + 1))
| rounded_overflow :
    rounded sx m1 E (S754_infinity sx).

(** Values a counter can hold: a valid binary64 number that is neither
    NaN nor negative. *)
Definition nonneg (x : spec_float) : bool :=
  match x with
  | S754_zero false | S754_infinity false | S754_finite false _ _ => true
  | _ => false
  end.

Definition positive_float (x : spec_float) : bool :=
  match x with
  | S754_infinity false | S754_finite false _ _ => true
  | _ => false
  end.

Definition valid (x : spec_float) : bool := valid_binary prec emax x.

(** Numbers that are neither NaN nor infinite. *)
Definition finite_float (x : spec_float) : bool :=
  match x with
  | S754_zero _ | S754_finite _ _ _ => true
  | _ => false
  end.

(** The binary64 number 1. *)
Definition one : spec_float := S754_finite false 4503599627370496 (-52).

(** The sum of the number of digits and the exponent of a finite number:
    the position of its leading bit. *)
Definition magnitude (x : spec_float) : Z :=
  match x with
  | S754_finite _ m e => Zdigits2 (Zpos m) + e
  | _ => 0
  end.

(** [m / 2^k] rounded to the nearest integer, ties to even. *)
Definition rne (m k : Z) : Z :=
  let q := m / 2 ^ k in
  match 2 * (m mod 2 ^ k) ?= 2 ^ k with
  | Lt => q
  | Eq => if Z.even q then q else q + 1
  | Gt => q + 1
  end.

(** The binary64 number with mantissa [m2] at exponent [E], where [m2]
    is at most [2^53]. *)
Definition pack (m2 E : Z) : spec_float :=
  match m2 with
  | Zpos p =>
      if m2 =? 2 ^ 53 then S754_finite false 4503599627370496 (E + 1)
      else S754_finite false p E
  | _ => S754_zero false
  end.



(** The counter of the owner of this process, the value published for
    it, and the percentage a tick computes. *)
Definition owner_counter (st : state) : counter :=
  default counter_zero (progress st !! ownerUID st).

Definition published (st : state) : spec_float :=
  Counter_value (ownerUID st) (progress st).

Definition percentage (r : prometheusProgressReader) : spec_float :=
  fmul (fdiv (float64 (Current (counting r))) (float64 (total r))) hundred.

(** The counter of the owner is in order: its float part is a valid
    binary64 number that is neither NaN nor negative, and its integer
    part is a [uint64]. *)
Definition counter_ok (st : state) : bool :=
  valid (valBits (owner_counter st)) && nonneg (valBits (owner_counter st)) &&
  (0 <=? valInt (owner_counter st)) && (valInt (owner_counter st) <=? maxUint64).

(** What one tick leaves in the trace, for a published value [v]. *)
Definition tick_events (owner : string) (v : spec_float) (r : prometheusProgressReader)
  : list event :=
  if 0 <? total r then
    [EvMetricWrite owner] ++
    (if SFltb v (percentage r)
     then [EvMetricAdd owner (fsub (percentage r) v)] else []) ++
    [EvLog (Some 1) (LogProgress (percentage r))]
  else [].

Definition is_progress_log (ev : event) : bool :=
  match ev with
  | EvLog (Some 1) (LogProgress _) => true
  | _ => false
  end.

(** * Properties *)

(** ** Header parsing *)

Section ParseUint.

Lemma digit_of_hex_digit (b : byte) :
  hex_digit b = match digit_of b with
                | Some d => if 16 <=? d then None else Some d
                | None => None
                end.
Proof. destruct b; reflexivity. Qed.

Lemma hex_digit_range (b : byte) (d : Z) : hex_digit b = Some d -> 0 <= d < 16.
Proof. destruct b; cbv; intros [= <-]; split; congruence. Qed.

(** As long as the digits still to come cannot push the value past
    [2^64], the loop never reports a range error: it stops at the first
    byte that is not a hexadecimal digit, or returns the value. *)
Lemma ParseUint_loop_16 (s : list byte) : forall n : Z,
  0 <= n ->
  (n + 1) * 16 ^ Z.of_nat (length s) <= 2 ^ 64 ->
  ParseUint_loop 16 (maxUint64 / 16 + 1) (2 ^ 64 - 1) s n =
    if forallb is_hex s
    then (fold_left (fun acc b => 16 * acc + default 0 (hex_digit b)) s n, None)
    else (0, Some ErrSyntax).
Proof.
  induction s as [|c s IH]; intros n Hn Hb; [reflexivity|].
  cbn [ParseUint_loop forallb fold_left length].
  unfold is_hex at 1.
  rewrite (digit_of_hex_digit c).
  destruct (digit_of c) as [d|] eqn:Ed; [|reflexivity].
  destruct (16 <=? d) eqn:E16; [reflexivity|].
  pose proof (hex_digit_range c d) as Hd.
  rewrite digit_of_hex_digit, Ed, E16 in Hd. specialize (Hd eq_refl).
  cbn [length] in Hb. rewrite Nat2Z.inj_succ, Z.pow_succ_r in Hb by lia.
  assert (Hp : 1 <= 16 ^ Z.of_nat (length s))
    by (apply Z.lt_pred_le, Z.pow_pos_nonneg; lia).
  change (maxUint64 / 16 + 1) with (2 ^ 60).
  assert (Hn60 : n < 2 ^ 60) by nia.
  destruct (2 ^ 60 <=? n) eqn:Ec; [apply Z.leb_le in Ec; lia|].
  unfold wrap64.
  rewrite (Z.mod_small (n * 16)) by lia.
  rewrite (Z.mod_small (n * 16 + d)) by lia.
  destruct (n * 16 + d <? n * 16) eqn:E1; [apply Z.ltb_lt in E1; lia|].
  destruct (2 ^ 64 - 1 <? n * 16 + d) eqn:E2; [apply Z.ltb_lt in E2; lia|].
  cbn [orb andb default]. unfold id.
  rewrite IH by nia.
  replace (16 * n + d) with (n * 16 + d) by lia. reflexivity.
Qed.

Lemma ParseUint_16_bytes (s : list byte) :
  length s = 16%nat ->
  ParseUint s 16 64 =
    if forallb is_hex s then (hex_value s, None) else (0, Some ErrSyntax).
Proof.
  intros Hl. unfold ParseUint.
  destruct s as [|c s]; [discriminate|].
  change ((2 <=? 16) && (16 <=? 36)) with true. cbv iota.
  rewrite ParseUint_loop_16; [reflexivity|lia|].
  rewrite Hl. vm_compute. discriminate.
Qed.

End ParseUint.

Section ReadTotal.

Context {R : Type} `{io_Reader R}.

(** [readTotal] returns [readTotal_result], logs [readTotal_log] and
    touches nothing else; it neither exits nor panics. *)
Lemma readTotal_spec (r : R) (st : state) :
  readTotal r st =
    (Returned (readTotal_result r), with_trace (fun t => t ++ readTotal_log r) st).
Proof.
  unfold readTotal, readTotal_result, readTotal_log.
  change (length (replicate 16 "000"%byte)) with 16%nat.
  destruct (Read r 16) as [[bs [e|]] r']; cbn [fst snd].
  - reflexivity.
  - assert (Hl : length (take 16 (bs ++ drop (length bs) (replicate 16 "000"%byte)))
                 = 16%nat).
    { rewrite length_take, length_app, length_drop, length_replicate. lia. }
    rewrite Hl.
    assert (Hst : with_trace (fun t => t ++ []) st = st).
    { destruct st; unfold with_trace; cbn. now rewrite app_nil_r. }
    rewrite Hst.
    destruct (length bs =? 16)%nat eqn:El; cbn [negb]; [|reflexivity].
    apply Nat.eqb_eq in El.
    assert (Hb : take 16 (bs ++ drop (length bs) (replicate 16 "000"%byte)) = bs).
    { rewrite El. cbn [drop replicate]. rewrite app_nil_r.
      apply take_ge. lia. }
    rewrite Hb, ParseUint_16_bytes by exact El.
    destruct (forallb is_hex bs); reflexivity.
Qed.

End ReadTotal.

(** ** The runs of the process *)

Ltac run_unfold :=
  unfold run, process, init, main, collectTotalSize, defer, klog_V_Info,
    klog_Errorf, klog_Flush, StartPrometheusEndpoint, ioutil_TempDir,
    os_RemoveAll, os_OpenFile, File_Close, os_Stat, util_StreamDataToFile,
    util_UnArchiveTar, os_Exit, panic, emit, modify, gets, mbind, M_bind,
    mret, M_ret, initial, with_trace, with_open_files, with_temp_dirs,
    with_globals, with_progress;
  cbn -[readTotal String.eqb].

Ltac run_case :=
  match goal with
  | |- context [match TempDir_result ?e with _ => _ end] =>
      destruct (TempDir_result e) as [?d|?err] eqn:?
  | |- context [String.eqb ?a ?b] => destruct (String.eqb_spec a b)
  | |- context [match OpenFile_result ?e ?p ?k with _ => _ end] =>
      destruct (OpenFile_result e p k) as [?src|?err] eqn:?
  | |- context [readTotal ?r ?st] => rewrite (readTotal_spec r st)
  | |- context [readTotal_result ?r] =>
      destruct (readTotal_result r) as [[?size [?err|]] ?f] eqn:?
  | |- context [IsNotExist ?x] => destruct (IsNotExist x) eqn:?
  | |- context [StreamDataToFile ?e ?r ?p] =>
      destruct (StreamDataToFile e r p) as [[?err|] ?r'] eqn:?
  | |- context [UnArchiveTar ?e ?r ?p] =>
      destruct (UnArchiveTar e r p) as [[?err|] ?r'] eqn:?
  end; cbn -[readTotal String.eqb].

Lemma path_ext (e : env) (o : outcome unit) (t t' : list event)
  (fs fs' : gset nat) (ds ds' : gset string) :
  path e o t fs ds -> t = t' -> fs = fs' -> ds = ds' -> path e o t' fs' ds'.
Proof. now intros Hp <- <- <-. Qed.

Ltac path_obligation :=
  first
    [ eassumption
    | unfold dispatch_result, payload_reader, header_file, pipe_of;
      repeat match goal with
        | H : IsNotExist _ = _ |- _ => rewrite H
        | H : StreamDataToFile _ _ _ = _ |- _ => rewrite H
        | H : UnArchiveTar _ _ _ = _ |- _ => rewrite H
        end;
      first [ eassumption | reflexivity ] ].

Ltac path_trace :=
  unfold startup, header_phase, payload_phase, fatal, dispatch_event, dispatch_log,
    payload_reader, header_file, pipe_of;
  repeat match goal with H : IsNotExist _ = _ |- _ => rewrite H end;
  cbn [app]; rewrite <- ?app_assoc; cbn [app]; reflexivity.

Ltac set_equal :=
  apply set_eq; intros ?; set_unfold; first [ tauto | lia ].

Ltac path_close c :=
  eapply path_ext;
  [ eapply c; path_obligation
  | path_trace
  | set_equal
  | set_equal ].

Lemma run_path (e : env) :
  path e (fst (run e)) (trace (snd (run e)))
    (open_files (snd (run e))) (temp_dirs (snd (run e))).
Proof.
  run_unfold. repeat run_case.
  - path_close path_flag.
  - path_close path_header_read.
  - path_close path_relay.
  - path_close path_complete.
  - path_close path_relay.
  - path_close path_complete.
  - path_close path_payload_open.
  - path_close path_header_open.
  - path_close path_tempdir.
Qed.

(** *** Facts shared by the trace properties *)

Lemma readTotal_log_channel {R} `{io_Reader R} (r : R) :
  channel_events (readTotal_log r) = [].
Proof. unfold readTotal_log. now destruct (snd (fst (Read r 16))). Qed.

Lemma readTotal_log_consumer {R} `{io_Reader R} (r : R) :
  consumer_events (readTotal_log r) = [].
Proof. unfold readTotal_log. now destruct (snd (fst (Read r 16))). Qed.

Lemma readTotal_log_In {R} `{io_Reader R} (r : R) (ev : event) :
  In ev (readTotal_log r) -> exists err, ev = EvLog None (LogError err).
Proof.
  unfold readTotal_log. destruct (snd (fst (Read r 16))) as [err|]; cbn; [|tauto].
  intros [<-|[]]. now exists err.
Qed.

Lemma channel_events_app (t u : list event) :
  channel_events (t ++ u) = channel_events t ++ channel_events u.
Proof. apply List.filter_app. Qed.

Lemma consumer_events_app (t u : list event) :
  consumer_events (t ++ u) = consumer_events t ++ consumer_events u.
Proof. apply List.filter_app. Qed.

Lemma channel_dispatch_event (e : env) (r : prometheusProgressReader) :
  channel_events [dispatch_log e; dispatch_event e r] = [dispatch_event e r].
Proof.
  unfold dispatch_log, dispatch_event.
  now destruct (IsNotExist (Stat_result e (ImporterWriteBlockPath e))).
Qed.

Lemma consumer_dispatch_event (e : env) (r : prometheusProgressReader) :
  consumer_events [dispatch_log e; dispatch_event e r] = [dispatch_event e r].
Proof.
  unfold dispatch_log, dispatch_event.
  now destruct (IsNotExist (Stat_result e (ImporterWriteBlockPath e))).
Qed.

(** The channel events of the three stretches of a trace. *)
Lemma channel_header_phase (e : env) (src : Source) :
  channel_events (header_phase e src) = [EvOpen (pipe_of e) (inl 0%nat); EvClose 0].
Proof.
  unfold header_phase. rewrite !channel_events_app, readTotal_log_channel.
  reflexivity.
Qed.

Lemma channel_payload_phase (e : env) (size : Z) (src : Source) :
  channel_events (payload_phase e size src) =
    [EvOpen (pipe_of e) (inl 1%nat); dispatch_event e (payload_reader size src)].
Proof.
  unfold payload_phase.
  change (channel_events ?l) with
    (EvOpen (pipe_of e) (inl 1%nat)
       :: channel_events [dispatch_log e; dispatch_event e (payload_reader size src)]).
  now rewrite channel_dispatch_event.
Qed.

Lemma consumer_header_phase (e : env) (src : Source) :
  consumer_events (header_phase e src) = [].
Proof.
  unfold header_phase. rewrite !consumer_events_app, readTotal_log_consumer.
  reflexivity.
Qed.

Lemma consumer_payload_phase (e : env) (size : Z) (src : Source) :
  consumer_events (payload_phase e size src) =
    [dispatch_event e (payload_reader size src)].
Proof.
  unfold payload_phase.
  change (consumer_events ?l) with
    (consumer_events [dispatch_log e; dispatch_event e (payload_reader size src)]).
  now rewrite consumer_dispatch_event.
Qed.

(** The fatal condition of each path. *)
Lemma path_fatal_condition (e : env) (o : outcome unit) (t : list event)
  (fs : gset nat) (ds : gset string) :
  path e o t fs ds ->
  match TempDir_result e with
  | inr err => o = Panicked err
  | inl _ =>
      match fatal_condition e with
      | Some err => o = Exited 1 /\ exists pre, t = pre ++ fatal err
      | None => o = Returned tt
      end
  end.
Proof.
  unfold fatal_condition.
  destruct 1 as [err Ht|d Ht Hp|d err Ht Hp Ho|d src v err f Ht Hp Ho Hr
                |d src size f err Ht Hp Ho Hr Ho'|d src size f src' err Ht Hp Ho Hr Ho' Hd
                |d src size f src' Ht Hp Ho Hr Ho' Hd];
    rewrite Ht; try reflexivity.
  - rewrite Hp, String.eqb_refl. split; [reflexivity|]. now eexists.
  - destruct (String.eqb_spec (pipe_of e) "nopipedir"); [contradiction|].
    rewrite Ho. split; [reflexivity|].
    eexists. rewrite !app_assoc. reflexivity.
  - destruct (String.eqb_spec (pipe_of e) "nopipedir"); [contradiction|].
    rewrite Ho, Hr. split; [reflexivity|].
    eexists. rewrite !app_assoc. reflexivity.
  - destruct (String.eqb_spec (pipe_of e) "nopipedir"); [contradiction|].
    rewrite Ho, Hr, Ho'. split; [reflexivity|].
    eexists. rewrite !app_assoc. reflexivity.
  - destruct (String.eqb_spec (pipe_of e) "nopipedir"); [contradiction|].
    rewrite Ho, Hr, Ho', Hd. split; [reflexivity|].
    eexists. rewrite !app_assoc. reflexivity.
  - destruct (String.eqb_spec (pipe_of e) "nopipedir"); [contradiction|].
    now rewrite Ho, Hr, Ho', Hd.
Qed.

(** Case analysis on the path a run takes. *)
Ltac by_paths e :=
  let Hp := fresh "Hp" in
  pose proof (run_path e) as Hp; revert Hp;
  generalize (fst (run e)) (trace (snd (run e)))
    (open_files (snd (run e))) (temp_dirs (snd (run e)));
  intros ? ? ? ? Hp;
  destruct Hp as [err Ht|d Ht Hf|d err Ht Hf Ho|d src v err f Ht Hf Ho Hr
                 |d src size f err Ht Hf Ho Hr Ho'
                 |d src size f src' err Ht Hf Ho Hr Ho' Hd
                 |d src size f src' Ht Hf Ho Hr Ho' Hd].

Ltac channel_norm :=
  rewrite ?channel_events_app, ?channel_header_phase, ?channel_payload_phase;
  change (channel_events (startup ?d)) with (@nil event);
  change (channel_events (fatal ?err)) with (@nil event);
  cbn [app channel_events List.filter is_channel_event].

Ltac consumer_norm :=
  rewrite ?consumer_events_app, ?consumer_header_phase, ?consumer_payload_phase;
  change (consumer_events (startup ?d)) with (@nil event);
  change (consumer_events (fatal ?err)) with (@nil event);
  cbn [app consumer_events List.filter is_consumer_event].

Lemma dispatch_event_not_open (e : env) (r : prometheusProgressReader)
  (p : string) (h : nat + error) : dispatch_event e r <> EvOpen p h.
Proof.
  unfold dispatch_event.
  now destruct (IsNotExist (Stat_result e (ImporterWriteBlockPath e))).
Qed.

(** Where in a list of channel events the second open can be. *)
Ltac split_at_open Heq :=
  repeat match type of Heq with
    | [] = ?pre ++ _ :: _ => destruct pre; discriminate Heq
    | _ :: _ = ?pre ++ _ :: _ =>
        destruct pre as [|? pre]; cbn [app] in Heq;
        [ first [ discriminate Heq
                | injection Heq; intros; exfalso;
                  eapply dispatch_event_not_open; eassumption
                | idtac ]
        | injection Heq as <- Heq ]
    end.

(** ** The header reader *)

(** C3, as amended: whenever the single [Read] that [readTotal] issues
    hands over 16 bytes that are all hexadecimal digits, with no error,
    [readTotal] returns their value in base 16 and no error, and logs
    nothing. *)
Theorem readTotal_full_header {R} `{io_Reader R} (r r' : R) (bs : list byte)
  (st : state) :
  Read r 16 = ((bs, None), r') ->
  length bs = 16%nat ->
  forallb is_hex bs = true ->
  readTotal r st = (Returned ((hex_value bs, None), r'), st).
Proof.
  intros Hread Hlen Hhex.
  rewrite readTotal_spec. unfold readTotal_result, readTotal_log.
  rewrite Hread, Hlen, Hhex. cbn.
  destruct st; unfold with_trace; cbn. now rewrite app_nil_r.
Qed.

Lemma readTotal_full_header_witness :
  readTotal [Data header_1024] (initial sample_env) =
    (Returned ((1024, None), []), initial sample_env).
Proof.
  exact (readTotal_full_header [Data header_1024] [] header_1024
           (initial sample_env) eq_refl eq_refl eq_refl).
Defined.

(** C3 as stated fails: a source that provides exactly the 16 digits
    [0000000000000400], but hands them over eight at a time, makes
    [readTotal] fail with the short-header error. *)
Lemma readTotal_split_header :
  clean split_header = true /\
  content split_header = header_1024 /\
  length (content split_header) = 16%nat /\
  forallb is_hex (content split_header) = true /\
  fst (readTotal split_header (initial sample_env)) =
    Returned ((0, Some ErrShortHeader), [Data (drop 8 header_1024)]).
Proof. repeat split; vm_compute; reflexivity. Qed.

(** C4, as amended: [readTotal] fails exactly when its single [Read] does
    not hand over 16 hexadecimal digits without error.  An error of the
    [Read] itself, end-of-stream included, is returned as it is; fewer (or
    more) than 16 bytes give the short-header error; 16 bytes with a byte
    that is no hexadecimal digit give the syntax error of [ParseUint]; the
    value returned beside an error is 0.  A header error ends the process
    with status 1. *)
Theorem readTotal_failures :
  (forall (R : Type) (HR : io_Reader R) (r r' : R) (bs : list byte)
          (err : option error) (st : state),
      Read r 16 = ((bs, err), r') ->
      (forall e, err = Some e ->
         fst (readTotal r st) = Returned ((0, Some e), r')) /\
      (err = None -> length bs <> 16%nat ->
         fst (readTotal r st) = Returned ((0, Some ErrShortHeader), r')) /\
      (err = None -> length bs = 16%nat -> forallb is_hex bs = false ->
         fst (readTotal r st) = Returned ((0, Some ErrSyntax), r')) /\
      ((exists v e f, fst (readTotal r st) = Returned ((v, Some e), f)) <->
         ~ (err = None /\ length bs = 16%nat /\ forallb is_hex bs = true)) /\
      (forall v e f, fst (readTotal r st) = Returned ((v, Some e), f) -> v = 0)) /\
  (forall (e : env) (d : string) (src : Source) (v : Z) (err : error) (f : File),
      TempDir_result e = inl d ->
      pipe_of e <> "nopipedir" ->
      OpenFile_result e (pipe_of e) 0 = inl src ->
      fst (readTotal (header_file src) (initial e)) = Returned ((v, Some err), f) ->
      fst (run e) = Exited 1 /\ exit_status (fst (run e)) = 1).
Proof.
  split.
  - intros R HR r r' bs err st Hread.
    rewrite readTotal_spec. cbn [fst]. unfold readTotal_result. rewrite Hread.
    assert (Hcase :
      (exists e0, err = Some e0) \/
      (err = None /\ length bs <> 16%nat) \/
      (err = None /\ length bs = 16%nat /\ forallb is_hex bs = false) \/
      (err = None /\ length bs = 16%nat /\ forallb is_hex bs = true)).
    { destruct err as [e0|]; [left; now exists e0|right].
      destruct (Nat.eq_dec (length bs) 16%nat) as [Hl|Hl]; [right|now left].
      destruct (forallb is_hex bs); [right|left]; now repeat split. }
    destruct Hcase as [[e0 ->]|[[-> Hl]|[(-> & Hl & Hhex)|(-> & Hl & Hhex)]]].
    + repeat apply conj; try congruence.
      all: try (intros _; now exists 0, e0, r').
      all: try (now intros _ [Habs _]).
    + apply Nat.eqb_neq in Hl as Hl'. rewrite Hl'. cbn [negb].
      repeat apply conj; try congruence.
      all: try (intros _; now exists 0, ErrShortHeader, r').
      all: try (now intros _ [_ [Habs _]]).
    + rewrite Hl, Hhex. cbn [negb Nat.eqb].
      repeat apply conj; try congruence.
      all: try (intros _; now exists 0, ErrSyntax, r').
      all: try (intros _ [_ [_ Habs]]; congruence).
    + rewrite Hl, Hhex. cbn [negb Nat.eqb].
      repeat apply conj; try congruence.
      all: try (intros (v & e1 & f & Heq); discriminate).
      all: try (intros Hn; exfalso; apply Hn; now repeat split).
  - intros e d src v err f Ht Hf Ho Hr.
    rewrite readTotal_spec in Hr. cbn [fst] in Hr. injection Hr as Hr.
    assert (Hfc : fatal_condition e = Some err).
    { unfold fatal_condition.
      destruct (String.eqb_spec (pipe_of e) "nopipedir"); [contradiction|].
      now rewrite Ho, Hr. }
    pose proof (path_fatal_condition e _ _ _ _ (run_path e)) as Hp.
    rewrite Ht, Hfc in Hp. destruct Hp as [-> _]. now split.
Qed.

Lemma readTotal_failures_witness :
  fst (readTotal [Data (take 10 header_1024)] (initial short_header_env)) =
    Returned ((0, Some ErrShortHeader), []) /\
  (fst (run short_header_env) = Exited 1 /\
   exit_status (fst (run short_header_env)) = 1).
Proof.
  split.
  - refine (proj1 (proj2 (proj1 readTotal_failures Source _
                            [Data (take 10 header_1024)] []
                            (take 10 header_1024) None
                            (initial short_header_env) eq_refl)) eq_refl _).
    vm_compute. discriminate.
  - refine (proj2 readTotal_failures short_header_env "/tmp/certsdir042"
              [Data (take 10 header_1024)] 0 ErrShortHeader
              {| fd := 0; pending := [] |} eq_refl _ eq_refl _).
    + vm_compute. discriminate.
    + vm_compute. reflexivity.
Defined.

(** C4 as stated fails: on a pipe that is closed before a single byte
    arrives, fewer than 16 bytes are available before end-of-stream, and
    what [readTotal] returns is the end-of-stream error of the [Read], not
    the short-header error. *)
Lemma readTotal_closed_pipe :
  length (content closed_pipe) = 0%nat /\
  fst (readTotal closed_pipe (initial sample_env)) = Returned ((0, Some EOF), []) /\
  EOF <> ErrShortHeader.
Proof. repeat split; try (vm_compute; reflexivity). discriminate. Qed.

(** ** The two phases on the channel *)

(** [collectTotalSize] returns, and leaves no file open that was not open
    before: the file it opened is closed by then. *)
Lemma collectTotalSize_closes (st : state) :
  (exists res, fst (collectTotalSize st) = Returned res) /\
  open_files (snd (collectTotalSize st)) ⊆ open_files st.
Proof.
  unfold collectTotalSize, defer, klog_V_Info, os_OpenFile, File_Close, emit,
    modify, gets, mbind, M_bind, mret, M_ret.
  cbn -[readTotal].
  destruct (OpenFile_result (os st) (namedPipe st) (opens st)) as [src|err];
    cbn -[readTotal].
  - rewrite readTotal_spec.
    destruct (readTotal_result {| fd := opens st; pending := src |}) as [res f].
    cbn. split; [now eexists|]. set_unfold. tauto.
  - split; [now eexists|reflexivity].
Qed.

(** C5: [collectTotalSize] always returns, and the file it opened is
    closed when it does.  Whenever a run opens the channel a second time,
    the events on the channel before that are exactly: the first open, by
    [collectTotalSize], and the close of that first file; the header was
    read from that first file; and what follows the second open concerns
    the second file only: the reader handed to the writer reads from it,
    and the close at the end is its close. *)
Theorem two_open_close_cycles (e : env) (pre post : list event) :
  (forall st : state,
     (exists res, fst (collectTotalSize st) = Returned res) /\
     open_files (snd (collectTotalSize st)) ⊆ open_files st) /\
  (channel_events (trace (snd (run e))) =
     pre ++ EvOpen (pipe_of e) (inl 1%nat) :: post ->
   exists (src src' : Source) (size : Z) (f : File),
     OpenFile_result e (pipe_of e) 0 = inl src /\
     fst (readTotal (header_file src) (initial e)) = Returned ((size, None), f) /\
     OpenFile_result e (pipe_of e) 1 = inl src' /\
     pre = [EvOpen (pipe_of e) (inl 0%nat); EvClose 0] /\
     fd (Reader (counting (payload_reader size src'))) = 1%nat /\
     (post = [dispatch_event e (payload_reader size src')] \/
      post = [dispatch_event e (payload_reader size src'); EvClose 1])).
Proof.
  split; [exact collectTotalSize_closes|].
  by_paths e; channel_norm; intros Heq; split_at_open Heq.
  all: injection Heq as <-.
  all: exists src, src', size, f; rewrite readTotal_spec; cbn [fst].
  all: repeat split; auto; now rewrite Hr.
Qed.

Lemma two_open_close_cycles_witness :
  exists (src src' : Source) (size : Z) (f : File),
    OpenFile_result sample_env (pipe_of sample_env) 0 = inl src /\
    fst (readTotal (header_file src) (initial sample_env)) =
      Returned ((size, None), f) /\
    OpenFile_result sample_env (pipe_of sample_env) 1 = inl src' /\
    [EvOpen "/tmp/clone.pipe" (inl 0%nat); EvClose 0] =
      [EvOpen (pipe_of sample_env) (inl 0%nat); EvClose 0] /\
    fd (Reader (counting (payload_reader size src'))) = 1%nat /\
    ([EvUnArchiveTar (payload_reader 1024 [Data (replicate 1024 "a"%byte)]) ".";
      EvClose 1] = [dispatch_event sample_env (payload_reader size src')] \/
     [EvUnArchiveTar (payload_reader 1024 [Data (replicate 1024 "a"%byte)]) ".";
      EvClose 1] = [dispatch_event sample_env (payload_reader size src'); EvClose 1]).
Proof.
  apply (proj2 (two_open_close_cycles sample_env
                  [EvOpen "/tmp/clone.pipe" (inl 0%nat); EvClose 0]
                  [EvUnArchiveTar
                     (payload_reader 1024 [Data (replicate 1024 "a"%byte)]) ".";
                   EvClose 1])).
  vm_compute. reflexivity.
Defined.

(** ** The destination dispatcher *)

(** C6: a run that reaches the payload phase calls exactly one of the two
    writers, once, with the counting reader over the second file as its
    source: the block-device writer on the marker path when the marker
    exists ([os.Stat] reports no error), the archive extractor into ["."]
    when it does not ([os.Stat] reports that the path does not exist). *)
Theorem destination_selection (e : env) :
  In (EvOpen (pipe_of e) (inl 1%nat)) (trace (snd (run e))) ->
  exists (size : Z) (src' : Source),
    OpenFile_result e (pipe_of e) 1 = inl src' /\
    counting (payload_reader size src')
      = {| Reader := {| fd := 1; pending := src' |}; Current := 0 |} /\
    (Stat_result e (ImporterWriteBlockPath e) = None ->
       consumer_events (trace (snd (run e))) =
         [EvStreamDataToFile (payload_reader size src') (ImporterWriteBlockPath e)]) /\
    (Stat_result e (ImporterWriteBlockPath e) = Some ErrNotExist ->
       consumer_events (trace (snd (run e))) =
         [EvUnArchiveTar (payload_reader size src') "."]) /\
    (exists c, consumer_events (trace (snd (run e))) = [c]).
Proof.
  intros Hin.
  assert (Hch : In (EvOpen (pipe_of e) (inl 1%nat))
                  (channel_events (trace (snd (run e))))).
  { apply List.filter_In. now split. }
  clear Hin. revert Hch.
  by_paths e; channel_norm; consumer_norm; cbn [In]; intros Hin.
  1-5: repeat destruct Hin as [Hin|Hin]; try discriminate; try contradiction.
  all: exists size, src'; split; [assumption|]; split; [reflexivity|].
  all: unfold dispatch_event; repeat split.
  all: try (intros ->; reflexivity).
  all: now eexists.
Qed.

Lemma destination_selection_witness :
  exists (size : Z) (src' : Source),
    OpenFile_result sample_env (pipe_of sample_env) 1 = inl src' /\
    counting (payload_reader size src')
      = {| Reader := {| fd := 1; pending := src' |}; Current := 0 |} /\
    (Stat_result sample_env (ImporterWriteBlockPath sample_env) = None ->
       consumer_events (trace (snd (run sample_env))) =
         [EvStreamDataToFile (payload_reader size src')
            (ImporterWriteBlockPath sample_env)]) /\
    (Stat_result sample_env (ImporterWriteBlockPath sample_env) = Some ErrNotExist ->
       consumer_events (trace (snd (run sample_env))) =
         [EvUnArchiveTar (payload_reader size src') "."]) /\
    (exists c, consumer_events (trace (snd (run sample_env))) = [c]).
Proof.
  apply (destination_selection sample_env).
  vm_compute. do 7 right. left. reflexivity.
Defined.

(** The first end-to-end scenario of section 8: the header
    [0000000000000400], a payload of 1024 bytes and no marker.  The
    extractor is called with the counting reader, which delivers the 1024
    bytes and counts them, and the process ends with status 0. *)
Example clone_of_1024_bytes :
  exit_status (fst (run sample_env)) = 0 /\
  consumer_events (trace (snd (run sample_env))) =
    [EvUnArchiveTar (payload_reader 1024 [Data (replicate 1024 "a"%byte)]) "."] /\
  drain (replicate 64 4096%nat)
    (payload_reader 1024 [Data (replicate 1024 "a"%byte)]) =
    ((replicate 1024 "a"%byte, Some EOF),
     {| counting := {| Reader := {| fd := 1; pending := [] |}; Current := 1024 |};
        total := 1024 |}).
Proof. repeat split; vm_compute; reflexivity. Qed.

(** ** Exit status *)

(** C8, as amended: a run that cannot create its temporary directory
    panics, which ends the process with status 2.  Every other run ends
    with status 1 when one of the fatal conditions occurs (the missing
    parameter, an error opening the channel in either phase, a header
    error, an error of the writer), and with status 0 otherwise; the fatal
    error is logged and the process exits at once. *)
Theorem exit_status_of_run (e : env) :
  exit_status (fst (run e)) =
    match TempDir_result e with
    | inr _ => 2
    | inl _ => match fatal_condition e with Some _ => 1 | None => 0 end
    end /\
  match TempDir_result e, fatal_condition e with
  | inl _, Some err =>
      exists pre, trace (snd (run e)) = pre ++ [EvLog None (LogError err); EvExit 1]
  | _, _ => True
  end.
Proof.
  pose proof (path_fatal_condition e _ _ _ _ (run_path e)) as Hp.
  destruct (TempDir_result e) as [d|err].
  - destruct (fatal_condition e) as [err|].
    + destruct Hp as [-> Hpre]. split; [reflexivity|exact Hpre].
    + rewrite Hp. now split.
  - rewrite Hp. now split.
Qed.

(** C8 as stated fails: when the temporary directory cannot be created,
    [main] panics and the process ends with status 2, neither 0 nor 1. *)
Lemma exit_status_of_panic :
  TempDir_result no_tempdir_env = inr (ErrOS "no space left on device") /\
  fst (run no_tempdir_env) = Panicked (ErrOS "no space left on device") /\
  exit_status (fst (run no_tempdir_env)) = 2.
Proof. repeat split; vm_compute; reflexivity. Qed.

(** ** Release of what the process holds *)

(** C9, at the failing input: without [-pipedir] the process creates its
    temporary directory, logs the missing flag and exits with status 1;
    the deferred [os.RemoveAll] (and [klog.Flush]) never run and the
    directory stays behind.  When the writer fails, the second file is
    never closed either. *)
Theorem exit_skips_deferred_release :
  let missing := run (with_pipedir None sample_env) in
  let failing := run failing_device_env in
  (fst missing = Exited 1 /\
   trace (snd missing) = leaked_tempdir_trace /\
   "/tmp/certsdir042" ∈ temp_dirs (snd missing)) /\
  (fst failing = Exited 1 /\
   1%nat ∈ open_files (snd failing) /\
   "/tmp/certsdir042" ∈ temp_dirs (snd failing) /\
   ~ In (EvClose 1) (trace (snd failing)) /\
   ~ In (EvRemoveAll "/tmp/certsdir042") (trace (snd failing))).
Proof.
  cbv zeta. repeat apply conj.
  all: try (vm_compute; reflexivity).
  all: try (vm_compute; intuition discriminate).
  all: apply (bool_decide_unpack _); vm_compute; exact I.
Qed.

(** ** The sentinel of the flag *)

Lemma path_sentinel (e : env) (o : outcome unit) (t : list event)
  (fs : gset nat) (ds : gset string) :
  path e o t fs ds ->
  pipe_of e = "nopipedir" ->
  match TempDir_result e with
  | inl d => o = Exited 1 /\ t = startup d ++ fatal ErrMissedFlag
  | inr err =>
      o = Panicked err /\
      t = [EvLog (Some 1) (LogText "Starting cloner target"); EvTempDir (inr err);
           EvPanic err; EvFlush]
  end.
Proof.
  intros Hp Hs.
  destruct Hp as [err Ht|d Ht Hf|d err Ht Hf Ho|d src v err f Ht Hf Ho Hr
                 |d src size f err Ht Hf Ho Hr Ho'
                 |d src size f src' err Ht Hf Ho Hr Ho' Hd
                 |d src size f src' Ht Hf Ho Hr Ho' Hd];
    rewrite Ht; try contradiction; now split.
Qed.

(** C10, as amended: giving [-pipedir nopipedir] and giving no
    [-pipedir] at all lead to the same run: the same end and the same
    trace, in which no file is ever opened; when the temporary directory
    could be created, that run ends with status 1. *)
Theorem nopipedir_sentinel (e : env) :
  let given := run (with_pipedir (Some "nopipedir") e) in
  let omitted := run (with_pipedir None e) in
  fst given = fst omitted /\
  trace (snd given) = trace (snd omitted) /\
  (forall ev, In ev (trace (snd given)) -> is_open_event ev = false) /\
  (forall d, TempDir_result e = inl d ->
     fst given = Exited 1 /\ exit_status (fst given) = 1).
Proof.
  intros given omitted.
  pose proof (path_sentinel _ _ _ _ _
                (run_path (with_pipedir (Some "nopipedir") e)) eq_refl) as Hg.
  pose proof (path_sentinel _ _ _ _ _
                (run_path (with_pipedir None e)) eq_refl) as Ho.
  change (TempDir_result (with_pipedir _ e)) with (TempDir_result e) in Hg, Ho.
  fold given in Hg. fold omitted in Ho.
  destruct (TempDir_result e) as [d|err];
    destruct Hg as [Hg1 Hg2], Ho as [Ho1 Ho2];
    rewrite Hg1, Hg2, Ho1, Ho2; repeat split; try discriminate.
  - intros ev Hin. cbn in Hin.
    repeat destruct Hin as [<-|Hin]; try reflexivity. contradiction.
  - intros ev Hin. cbn in Hin.
    repeat destruct Hin as [<-|Hin]; try reflexivity. contradiction.
Qed.

Lemma nopipedir_sentinel_witness :
  TempDir_result sample_env = inl "/tmp/certsdir042" /\
  fst (run (with_pipedir (Some "nopipedir") sample_env)) = Exited 1 /\
  exit_status (fst (run (with_pipedir (Some "nopipedir") sample_env))) = 1.
Proof.
  split; [reflexivity|].
  exact (proj2 (proj2 (proj2 (nopipedir_sentinel sample_env)))
           "/tmp/certsdir042" eq_refl).
Defined.

(** C10 as stated fails when the temporary directory cannot be created:
    with [-pipedir nopipedir] and with no [-pipedir] alike, [main] panics
    before it looks at the flag, and the process ends with status 2, not
    1. *)
Lemma nopipedir_sentinel_panics :
  let omitted := run (with_pipedir None no_tempdir_env) in
  let sentinel := run (with_pipedir (Some "nopipedir") no_tempdir_env) in
  fst omitted = Panicked (ErrOS "no space left on device") /\
  fst sentinel = Panicked (ErrOS "no space left on device") /\
  exit_status (fst omitted) = 2 /\
  exit_status (fst sentinel) = 2 /\
  ~ In (EvExit 1) (trace (snd omitted)) /\
  ~ In (EvExit 1) (trace (snd sentinel)).
Proof.
  cbv zeta. repeat apply conj; try (vm_compute; reflexivity).
  all: vm_compute; intuition discriminate.
Qed.

(** ** The counting relay reader *)

Section Drain.

Context {R : Type} `{io_Reader R}.

(** Every read of the counting reader is the read of the stream it
    decorates, and adds the number of bytes read to the counter. *)
Lemma CountingReader_Read_spec (r : CountingReader R) (cap : nat) :
  Read r cap =
    (fst (Read (Reader r) cap),
     {| Reader := snd (Read (Reader r) cap);
        Current := wrap64 (Current r
                           + Z.of_nat (length (fst (fst (Read (Reader r) cap))))) |}).
Proof.
  unfold Read at 1, CountingReader_Reader, CountingReader_Read.
  now destruct (Read (Reader r) cap) as [[bs err] r'].
Qed.

End Drain.

Lemma wrap64_add_l (a b : Z) : wrap64 (wrap64 a + b) = wrap64 (a + b).
Proof. unfold wrap64. now rewrite Zplus_mod_idemp_l. Qed.

(** Draining a clean source through the counting reader: with enough
    reads, each into a buffer that is not empty, the consumer has received
    the content of the source when end-of-stream arrives, and the counter
    has advanced by its length. *)
Lemma drain_counting (bufs : list nat) : forall (s : Source) (c : Z),
  clean s = true ->
  Forall (fun cap => 0 < cap)%nat bufs ->
  (length s + length (content s) < length bufs)%nat ->
  drain bufs {| Reader := s; Current := c |} =
    ((content s, Some EOF),
     {| Reader := []; Current := wrap64 (c + Z.of_nat (length (content s))) |}).
Proof.
  induction bufs as [|cap bufs IH]; intros s c Hclean Hpos Hlen;
    [cbn in Hlen; lia|].
  apply Forall_cons_1 in Hpos as [Hcap Hpos].
  cbn [drain]. rewrite CountingReader_Read_spec. cbn [Reader Current fst snd].
  destruct s as [|[bs|err] rest]; [| |discriminate];
    unfold Read, Source_Reader, Source_Read.
  - cbn. now rewrite Z.add_0_r.
  - cbn [clean content length] in *.
    destruct (Nat.leb_spec (length bs) cap) as [Hle|Hgt]; cbn [fst snd].
    + rewrite IH; [|assumption|assumption|rewrite length_app in Hlen; lia].
      rewrite wrap64_add_l, length_app, Nat2Z.inj_add, Z.add_assoc.
      reflexivity.
    + rewrite IH; [|assumption|assumption|].
      * cbn [content]. rewrite wrap64_add_l, app_assoc, take_drop.
        rewrite <- Z.add_assoc, <- Nat2Z.inj_add, <- !length_app.
        now rewrite app_assoc, take_drop.
      * cbn [content length]. rewrite length_app, length_drop.
        rewrite length_app in Hlen. lia.
Qed.

(** C7: for a source that yields [n] bytes and then end-of-stream, a
    consumer that drains the counting reader (enough reads into buffers
    that are not empty) receives exactly the bytes of the source, in
    order, ends on end-of-stream, and leaves the counter, started at 0, at
    [n]; and each single read returns just what the read of the source
    returns. *)
Theorem counting_relay (s : Source) (bufs : list nat) :
  clean s = true ->
  Z.of_nat (length (content s)) <= maxUint64 ->
  Forall (fun cap => 0 < cap)%nat bufs ->
  (length s + length (content s) < length bufs)%nat ->
  drain bufs {| Reader := s; Current := 0 |} =
    ((content s, Some EOF),
     {| Reader := []; Current := Z.of_nat (length (content s)) |}) /\
  forall (r : CountingReader Source) (cap : nat),
    fst (Read r cap) = fst (Read (Reader r) cap) /\
    Reader (snd (Read r cap)) = snd (Read (Reader r) cap).
Proof.
  intros Hclean Hmax Hpos Hlen. split.
  - rewrite drain_counting by assumption.
    unfold wrap64. rewrite Z.add_0_l, Z.mod_small; [reflexivity|].
    unfold maxUint64 in Hmax. lia.
  - intros r cap. now rewrite CountingReader_Read_spec.
Qed.

Lemma counting_relay_witness :
  drain (replicate 20 3%nat)
    {| Reader := [Data (take 10 header_1024); Data (drop 10 header_1024)];
       Current := 0 |} =
    ((header_1024, Some EOF), {| Reader := []; Current := 16 |}) /\
  forall (r : CountingReader Source) (cap : nat),
    fst (Read r cap) = fst (Read (Reader r) cap) /\
    Reader (snd (Read r cap)) = snd (Read (Reader r) cap).
Proof.
  refine (counting_relay
            [Data (take 10 header_1024); Data (drop 10 header_1024)]
            (replicate 20 3%nat) eq_refl _ _ _).
  - vm_compute. discriminate.
  - repeat constructor.
  - vm_compute. lia.
Defined.

(** ** The progress reporter when the size is zero *)

(** C2: with a total size of 0 no tick of the reporter does anything: the
    state of the process after any number of ticks is the state before
    them, so nothing was computed or logged, no counter was read, created
    or advanced. *)
Theorem zero_total_never_reports (r : prometheusProgressReader) (counts : list Z)
  (st : state) :
  total r = 0 ->
  timedUpdateProgress r counts st = (Returned tt, st).
Proof.
  intros Hz. revert st.
  induction counts as [|c counts IH]; intros st; [reflexivity|].
  cbn [timedUpdateProgress]. unfold mbind, M_bind.
  unfold updateProgress, at_count. cbn [total]. rewrite Hz. cbn.
  apply IH.
Qed.

Lemma zero_total_never_reports_witness :
  timedUpdateProgress (payload_reader 0 []) [0; 7; 4096] (initial sample_env) =
    (Returned tt, initial sample_env).
Proof.
  exact (zero_total_never_reports (payload_reader 0 []) [0; 7; 4096]
           (initial sample_env) eq_refl).
Defined.

(** ** binary64 arithmetic *)

Section Binary64.

Local Abbreviation fexp := (SpecFloat.fexp prec emax).

Lemma fexp_eq (x : Z) : fexp x = Z.max (x - 53) (-1074).
Proof. reflexivity. Qed.

Lemma digits2_pos_size (p : positive) : digits2_pos p = Pos.size p.
Proof. induction p; cbn; congruence. Qed.

Lemma Zdigits2_log2 (m : Z) : 0 < m -> Zdigits2 m = Z.log2 m + 1.
Proof.
  destruct m as [|p|p]; try lia. intros _. cbn [Zdigits2].
  rewrite digits2_pos_size. destruct p; cbn; lia.
Qed.

Lemma Zdigits2_nonneg (m : Z) : 0 <= Zdigits2 m.
Proof. destruct m; cbn; lia. Qed.

Lemma Zdigits2_bounds (m : Z) :
  0 < m -> 1 <= Zdigits2 m /\ 2 ^ (Zdigits2 m - 1) <= m < 2 ^ Zdigits2 m.
Proof.
  intros Hm. rewrite Zdigits2_log2 by assumption.
  pose proof (Z.log2_nonneg m). pose proof (Z.log2_spec m Hm) as Hs.
  replace (Z.log2 m + 1 - 1) with (Z.log2 m) by lia.
  unfold Z.succ in Hs. lia.
Qed.

(** A number of at least [2^(d-1)] has at least [d] digits. *)
Lemma Zdigits2_ge (m d : Z) : 0 < m -> 2 ^ (d - 1) <= m -> d <= Zdigits2 m.
Proof.
  intros Hm Hd. rewrite Zdigits2_log2 by assumption.
  destruct (Z.le_gt_cases 0 (d - 1)) as [H0|H0].
  - apply Z.log2_le_pow2 in Hd; lia.
  - pose proof (Z.log2_nonneg m). lia.
Qed.

(** A number below [2^d] has at most [d] digits. *)
Lemma Zdigits2_le (m d : Z) : 0 <= m -> 0 <= d -> m < 2 ^ d -> Zdigits2 m <= d.
Proof.
  intros Hm Hd Hlt.
  destruct (Z.eq_dec m 0) as [->|Hne]; [cbn; lia|].
  rewrite Zdigits2_log2 by lia.
  apply Z.log2_lt_pow2 in Hlt; lia.
Qed.

Lemma Zdigits2_mono (m n : Z) : 0 <= m <= n -> Zdigits2 m <= Zdigits2 n.
Proof.
  intros [Hm Hn].
  destruct (Z.eq_dec m 0) as [->|Hne]; [apply Zdigits2_nonneg|].
  rewrite !Zdigits2_log2 by lia.
  pose proof (Z.log2_le_mono m n Hn). lia.
Qed.

Lemma Zdigits2_mul_pow2 (m k : Z) :
  0 < m -> 0 <= k -> Zdigits2 (m * 2 ^ k) = Zdigits2 m + k.
Proof.
  intros Hm Hk.
  assert (0 < 2 ^ k) by (apply Z.pow_pos_nonneg; lia).
  rewrite !Zdigits2_log2 by nia.
  rewrite Z.log2_mul_pow2 by lia. lia.
Qed.

(** *** Shifting right *)

Lemma shr_1_m (mrs : shr_record) :
  0 <= shr_m mrs -> shr_m (shr_1 mrs) = shr_m mrs / 2.
Proof.
  destruct mrs as [m r s]. cbn [shr_m]. intros Hm.
  rewrite <- Z.div2_div.
  destruct m as [|[p|p|]|p]; try lia; reflexivity.
Qed.

Lemma pow2_xO (p : positive) : 2 ^ Zpos p~0 = 2 ^ Zpos p * 2 ^ Zpos p.
Proof. rewrite Pos2Z.inj_xO, <- Z.pow_add_r by lia. f_equal. lia. Qed.

Lemma pow2_xI (p : positive) : 2 ^ Zpos p~1 = 2 * (2 ^ Zpos p * 2 ^ Zpos p).
Proof.
  rewrite Pos2Z.inj_xI, <- Z.pow_add_r by lia.
  replace (2 * Zpos p + 1) with (1 + (Zpos p + Zpos p)) by lia.
  rewrite Z.pow_add_r by lia. reflexivity.
Qed.

Lemma iter_shr_1_m (p : positive) : forall mrs : shr_record,
  0 <= shr_m mrs ->
  shr_m (SpecFloat.iter_pos shr_1 p mrs) = shr_m mrs / 2 ^ Zpos p.
Proof.
  induction p as [p IH|p IH|]; intros mrs Hm; cbn [SpecFloat.iter_pos].
  - assert (H1 : 0 <= shr_m (shr_1 mrs)).
    { rewrite shr_1_m by assumption. apply Z.div_pos; lia. }
    assert (Hp : 0 < 2 ^ Zpos p) by (apply Z.pow_pos_nonneg; lia).
    assert (H2 : 0 <= shr_m (SpecFloat.iter_pos shr_1 p (shr_1 mrs))).
    { rewrite IH by assumption. apply Z.div_pos; lia. }
    rewrite IH, IH, shr_1_m by assumption.
    rewrite !Z.div_div by lia.
    now rewrite pow2_xI, Z.mul_assoc.
  - assert (Hp : 0 < 2 ^ Zpos p) by (apply Z.pow_pos_nonneg; lia).
    assert (H2 : 0 <= shr_m (SpecFloat.iter_pos shr_1 p mrs)).
    { rewrite IH by assumption. apply Z.div_pos; lia. }
    rewrite IH, IH by assumption.
    rewrite !Z.div_div by lia.
    now rewrite pow2_xO.
  - rewrite shr_1_m by assumption. reflexivity.
Qed.

Lemma shr_record_of_loc_m (m : Z) (l : location) : shr_m (shr_record_of_loc m l) = m.
Proof. destruct l as [|[]]; reflexivity. Qed.

(** The first component of [shr_fexp]: the mantissa divided by the power
    of two that brings the exponent to [fexp]. *)
Lemma shr_fexp_spec (m e : Z) (l : location) :
  0 <= m ->
  e <= fexp (Zdigits2 m + e) ->
  shr_m (fst (shr_fexp prec emax m e l)) = m / 2 ^ (fexp (Zdigits2 m + e) - e) /\
  snd (shr_fexp prec emax m e l) = fexp (Zdigits2 m + e).
Proof.
  intros Hm He. unfold shr_fexp, shr.
  destruct (fexp (Zdigits2 m + e) - e) as [|k|k] eqn:Ek; try lia; cbn [fst snd].
  - rewrite shr_record_of_loc_m, Z.div_1_r. lia.
  - rewrite iter_shr_1_m, shr_record_of_loc_m by (now rewrite shr_record_of_loc_m).
    lia.
Qed.

Lemma round_nearest_even_bounds (m : Z) (l : location) :
  m <= round_nearest_even m l <= m + 1.
Proof.
  unfold round_nearest_even.
  destruct l as [|[]]; try destruct (Z.even m); lia.
Qed.


(** After the first shift the mantissa fits in 53 bits, and it has fewer
    than 53 bits at the least exponent only. *)
Lemma truncated_mantissa (m e : Z) :
  0 <= m ->
  e <= fexp (Zdigits2 m + e) ->
  let E := fexp (Zdigits2 m + e) in
  let m1 := m / 2 ^ (E - e) in
  0 <= m1 < 2 ^ 53 /\ (m1 < 2 ^ 52 -> E = -1074) /\ -1074 <= E.
Proof.
  intros Hm He E m1. subst E m1. rewrite fexp_eq in *.
  set (d := Zdigits2 m) in *.
  assert (Hd : 0 <= d) by apply Zdigits2_nonneg.
  set (E := Z.max (d + e - 53) (-1074)) in *.
  assert (Hk : 0 <= E - e) by lia.
  assert (Hp : 0 < 2 ^ (E - e)) by (apply Z.pow_pos_nonneg; lia).
  assert (Hm1 : 0 <= m / 2 ^ (E - e)) by (apply Z.div_pos; lia).
  destruct (Z.eq_dec m 0) as [->|Hne].
  { rewrite Z.div_0_l by lia. subst d. cbn [Zdigits2] in *.
    repeat split; try lia. }
  assert (Hb : 1 <= d /\ 2 ^ (d - 1) <= m < 2 ^ d) by (apply Zdigits2_bounds; lia).
  destruct Hb as (Hd1 & Hlo & Hhi).
  destruct (Z.le_gt_cases (-1074) (d + e - 53)) as [Hn|Hs].
  - (* the result is normal *)
    assert (HE : E - e = d - 53) by lia.
    rewrite HE in *.
    assert (H53 : 2 ^ d = 2 ^ (d - 53) * 2 ^ 53).
    { rewrite <- Z.pow_add_r by lia. f_equal. lia. }
    assert (H52 : 2 ^ (d - 1) = 2 ^ (d - 53) * 2 ^ 52).
    { rewrite <- Z.pow_add_r by lia. f_equal. lia. }
    assert (Hlt : m / 2 ^ (d - 53) < 2 ^ 53).
    { apply Z.div_lt_upper_bound; lia. }
    assert (Hge : 2 ^ 52 <= m / 2 ^ (d - 53)).
    { apply Z.div_le_lower_bound; lia. }
    repeat split; lia.
  - (* the result is subnormal *)
    assert (HE : E = -1074) by lia.
    assert (Hlt : m / 2 ^ (E - e) < 2 ^ 52).
    { apply Z.div_lt_upper_bound; [lia|].
      rewrite <- Z.pow_add_r by lia.
      apply Z.lt_le_trans with (2 ^ d); [lia|].
      apply Z.pow_le_mono_r; lia. }
    repeat split; lia.
Qed.

Lemma bounded_intro (m : positive) (e : Z) :
  fexp (Zdigits2 (Zpos m) + e) = e -> e <= 971 -> bounded prec emax m e = true.
Proof.
  intros Hc He. unfold bounded, canonical_mantissa.
  cbn [Zdigits2] in Hc. rewrite Hc, Z.eqb_refl. cbn [andb].
  apply Z.leb_le. exact He.
Qed.

Lemma bounded_elim (m : positive) (e : Z) :
  bounded prec emax m e = true ->
  fexp (Zdigits2 (Zpos m) + e) = e /\ e <= 971.
Proof.
  unfold bounded, canonical_mantissa. intros Hb.
  apply andb_true_iff in Hb as [Hc He].
  apply Z.eqb_eq in Hc. apply Z.leb_le in He. cbn [Zdigits2]. split; [exact Hc|exact He].
Qed.

(** The rounding of [binary_round_aux], for a mantissa that is not
    given with more precision than its exponent allows. *)
Lemma binary_round_aux_rounded (sx : bool) (m e : Z) (l : location) :
  0 <= m ->
  e <= fexp (Zdigits2 m + e) ->
  rounded sx (m / 2 ^ (fexp (Zdigits2 m + e) - e)) (fexp (Zdigits2 m + e))
    (binary_round_aux prec emax sx m e l).
Proof.
  intros Hm He.
  destruct (truncated_mantissa m e Hm He) as (Hm1 & Hsub & HE).
  destruct (shr_fexp_spec m e l Hm He) as [Hs1 Hs2].
  unfold binary_round_aux.
  destruct (shr_fexp prec emax m e l) as [mrs' e'] eqn:E1.
  cbn [fst snd] in Hs1, Hs2. subst e'.
  set (E := fexp (Zdigits2 m + e)) in *.
  set (m1 := m / 2 ^ (E - e)) in *.
  pose proof (round_nearest_even_bounds (shr_m mrs') (loc_of_shr_record mrs')) as Hr.
  set (m2 := round_nearest_even (shr_m mrs') (loc_of_shr_record mrs')) in *.
  rewrite Hs1 in Hr.
  assert (Hcase : (m2 = 0 /\ fexp (Zdigits2 m2 + E) = E) \/
                  (0 < m2 < 2 ^ 53 /\ fexp (Zdigits2 m2 + E) = E) \/
                  (m2 = 2 ^ 53 /\ fexp (Zdigits2 m2 + E) = E + 1)).
  { destruct (Z.eq_dec m2 0) as [H0|H0]; [left|right].
    - split; [assumption|]. rewrite H0. cbn [Zdigits2]. rewrite fexp_eq. lia.
    - destruct (Z.eq_dec m2 (2 ^ 53)) as [H53|H53]; [right|left].
      + split; [assumption|]. rewrite H53. change (Zdigits2 (2 ^ 53)) with 54.
        rewrite fexp_eq. lia.
      + split; [lia|].
        destruct (Z.le_gt_cases (2 ^ 52) m2) as [Hn|Hs].
        * assert (Hd : Zdigits2 m2 = 53).
          { apply Z.le_antisymm.
            - apply Zdigits2_le; lia.
            - apply Zdigits2_ge; [lia|]. exact Hn. }
          rewrite Hd, fexp_eq. lia.
        * assert (Hd : Zdigits2 m2 <= 52) by (apply Zdigits2_le; lia).
          pose proof (Zdigits2_nonneg m2).
          rewrite fexp_eq. lia. }
  destruct Hcase as [[H0 Hf]|[[Hpos Hf]|[H53 Hf]]].
  - assert (He2 : E <= fexp (Zdigits2 m2 + E)) by lia.
    destruct (shr_fexp_spec m2 E loc_Exact ltac:(lia) He2) as [Ht1 Ht2].
    destruct (shr_fexp prec emax m2 E loc_Exact) as [mrs'' e''].
    cbn [fst snd] in Ht1, Ht2.
    rewrite Ht1, Hf, Z.sub_diag, Z.div_1_r, H0.
    apply rounded_zero. lia.
  - assert (He2 : E <= fexp (Zdigits2 m2 + E)) by lia.
    destruct (shr_fexp_spec m2 E loc_Exact ltac:(lia) He2) as [Ht1 Ht2].
    destruct (shr_fexp prec emax m2 E loc_Exact) as [mrs'' e''].
    cbn [fst snd] in Ht1, Ht2.
    rewrite Ht1, Ht2, Hf, Z.sub_diag, Z.div_1_r.
    destruct m2 as [|p|p] eqn:Ep; try lia.
    change (emax - prec) with 971.
    destruct (Z.leb_spec E 971) as [Hle|Hgt]; [|apply rounded_overflow].
    apply rounded_same; [lia|].
    apply bounded_intro; assumption.
  - assert (He2 : E <= fexp (Zdigits2 m2 + E)) by lia.
    destruct (shr_fexp_spec m2 E loc_Exact ltac:(lia) He2) as [Ht1 Ht2].
    destruct (shr_fexp prec emax m2 E loc_Exact) as [mrs'' e''].
    cbn [fst snd] in Ht1, Ht2.
    rewrite Ht1, Ht2, Hf, H53.
    replace (E + 1 - E) with 1 by lia.
    change (2 ^ 53 / 2 ^ 1) with (Zpos 4503599627370496).
    change (emax - prec) with 971.
    destruct (Z.leb_spec (E + 1) 971) as [Hle|Hgt]; [|apply rounded_overflow].
    apply rounded_carry; [lia|reflexivity|].
    apply bounded_intro; [|assumption].
    change (Zdigits2 4503599627370496) with 53. rewrite fexp_eq. lia.
Qed.


Lemma rounded_valid (sx : bool) (m1 E : Z) (x : spec_float) :
  rounded sx m1 E x -> valid x = true.
Proof. destruct 1; try reflexivity; assumption. Qed.

(** *** Alignment and [binary_round] *)

Lemma Pos_iter_xO (m d : positive) : Zpos (Pos.iter xO m d) = Zpos m * 2 ^ Zpos d.
Proof.
  induction d as [|d IH] using Pos.peano_ind.
  - cbn. lia.
  - rewrite Pos.iter_succ, Pos2Z.inj_xO, IH, Pos2Z.inj_succ, Z.pow_succ_r by lia.
    lia.
Qed.

Lemma shl_align_spec (mx : positive) (ex ex' : Z) :
  Zpos (fst (shl_align mx ex ex')) = Zpos mx * 2 ^ (ex - Z.min ex ex') /\
  snd (shl_align mx ex ex') = Z.min ex ex'.
Proof.
  unfold shl_align.
  destruct (ex' - ex) as [|d|d] eqn:Ed; cbn [fst snd].
  - replace (ex - Z.min ex ex') with 0 by lia. split; lia.
  - replace (ex - Z.min ex ex') with 0 by lia. split; lia.
  - rewrite Pos_iter_xO. replace (ex - Z.min ex ex') with (Zpos d) by lia.
    split; lia.
Qed.

(** [binary_round]: the mantissa is first brought to the exponent of
    the result, when it is given at a larger one. *)
Lemma binary_round_rounded (sx : bool) (mx : positive) (ex : Z) :
  let E := fexp (Zdigits2 (Zpos mx) + ex) in
  let ez := Z.min ex E in
  rounded sx (Zpos mx * 2 ^ (ex - ez) / 2 ^ (E - ez)) E
    (binary_round prec emax sx mx ex).
Proof.
  intros E ez. unfold binary_round.
  destruct (shl_align_spec mx ex E) as [Hm He].
  change (fexp (Zpos (digits2_pos mx) + ex)) with E.
  destruct (shl_align mx ex E) as [mz ez'].
  cbn [fst snd] in Hm, He. subst ez'. fold ez in Hm |- *.
  assert (Hp : 0 < 2 ^ (ex - ez)) by (apply Z.pow_pos_nonneg; lia).
  assert (Hd : Zdigits2 (Zpos mz) + ez = Zdigits2 (Zpos mx) + ex).
  { rewrite Hm, Zdigits2_mul_pow2 by lia. lia. }
  pose proof (binary_round_aux_rounded sx (Zpos mz) ez loc_Exact) as Hr.
  rewrite Hd in Hr. fold E in Hr. rewrite <- Hm.
  apply Hr; lia.
Qed.

Lemma binary_round_valid (sx : bool) (mx : positive) (ex : Z) :
  valid (binary_round prec emax sx mx ex) = true.
Proof. eapply rounded_valid, binary_round_rounded. Qed.

Lemma binary_normalize_valid (m e : Z) (sz : bool) :
  valid (binary_normalize prec emax m e sz) = true.
Proof.
  destruct m; cbn [binary_normalize]; [reflexivity| |]; apply binary_round_valid.
Qed.

(** A positive mantissa at an exponent that is not below the least one
    rounds to a positive number. *)
Lemma binary_round_positive (mx : positive) (ex : Z) :
  -1074 <= ex ->
  positive_float (binary_round prec emax false mx ex) = true.
Proof.
  intros Hex.
  pose proof (binary_round_rounded false mx ex) as Hr. cbv zeta in Hr.
  set (E := fexp (Zdigits2 (Zpos mx) + ex)) in *.
  set (ez := Z.min ex E) in *.
  destruct Hr as [H0| | |]; try reflexivity.
  exfalso.
  assert (Hp : 0 < 2 ^ (ex - ez)) by (apply Z.pow_pos_nonneg; lia).
  destruct (Z.le_gt_cases E ex) as [Hle|Hgt].
  - replace (E - ez) with 0 in H0 by lia.
    rewrite Z.div_1_r in H0. nia.
  - replace (ex - ez) with 0 in H0 by lia.
    replace ez with ex in H0 by lia.
    rewrite Z.mul_1_r in H0.
    destruct (truncated_mantissa (Zpos mx) ex) as (_ & Hsub & _); [lia|fold E; lia|].
    fold E in Hsub. rewrite H0 in Hsub. lia.
Qed.


(** *** Validity of the results of the operations *)

Lemma float64_valid (n : Z) : valid (float64 n) = true.
Proof. apply binary_normalize_valid. Qed.

Lemma fadd_valid (x y : spec_float) :
  valid x = true -> valid y = true -> valid (fadd x y) = true.
Proof.
  intros Hx Hy. unfold fadd, SFadd.
  destruct x as [sx|sx| |sx mx ex], y as [sy|sy| |sy my ey];
    try reflexivity; try assumption;
    try (destruct sx, sy; reflexivity).
  apply binary_normalize_valid.
Qed.

Lemma fsub_valid (x y : spec_float) :
  valid x = true -> valid y = true -> valid (fsub x y) = true.
Proof.
  intros Hx Hy. unfold fsub, SFsub.
  destruct x as [sx|sx| |sx mx ex], y as [sy|sy| |sy my ey];
    try reflexivity; try assumption;
    try (destruct sx, sy; reflexivity).
  apply binary_normalize_valid.
Qed.

(** What [bounded] says about a mantissa and its exponent. *)
Lemma bounded_canonical (m : positive) (e : Z) :
  bounded prec emax m e = true ->
  1 <= Zdigits2 (Zpos m) <= 53 /\ -1074 <= e <= 971 /\
  (Zdigits2 (Zpos m) = 53 \/ e = -1074).
Proof.
  intros Hb. apply bounded_elim in Hb as [Hc He].
  rewrite fexp_eq in Hc.
  destruct (Zdigits2_bounds (Zpos m)) as [Hd _]; lia.
Qed.

Lemma Zdigits2_mul (a b : Z) :
  0 < a -> 0 < b -> Zdigits2 a + Zdigits2 b - 1 <= Zdigits2 (a * b).
Proof.
  intros Ha Hb.
  destruct (Zdigits2_bounds a Ha) as (Ha1 & Hal & _).
  destruct (Zdigits2_bounds b Hb) as (Hb1 & Hbl & _).
  apply Zdigits2_ge; [nia|].
  replace (Zdigits2 a + Zdigits2 b - 1 - 1)
    with ((Zdigits2 a - 1) + (Zdigits2 b - 1)) by lia.
  rewrite Z.pow_add_r by lia.
  apply Z.mul_le_mono_nonneg; try assumption; apply Z.pow_nonneg; lia.
Qed.

Lemma fmul_valid (x y : spec_float) :
  valid x = true -> valid y = true -> valid (fmul x y) = true.
Proof.
  intros Hx Hy. unfold fmul, SFmul.
  destruct x as [sx|sx| |sx mx ex], y as [sy|sy| |sy my ey]; try reflexivity.
  cbn [valid valid_binary] in Hx, Hy.
  apply bounded_canonical in Hx as (Hdx & Hex & Hnx).
  apply bounded_canonical in Hy as (Hdy & Hey & Hny).
  eapply rounded_valid, binary_round_aux_rounded; [lia|].
  pose proof (Zdigits2_mul (Zpos mx) (Zpos my) ltac:(lia) ltac:(lia)) as Hd.
  change (Zpos mx * Zpos my) with (Zpos (mx * my)) in Hd.
  rewrite fexp_eq. lia.
Qed.

(** The quotient that [SFdiv_core_binary] computes has enough digits
    for its exponent. *)
Lemma SFdiv_core_binary_spec (mx my : positive) (ex ey : Z) :
  let '(q, e', _) := SFdiv_core_binary prec emax (Zpos mx) ex (Zpos my) ey in
  0 <= q /\ e' <= fexp (Zdigits2 q + e').
Proof.
  unfold SFdiv_core_binary.
  set (d1 := Zdigits2 (Zpos mx)). set (d2 := Zdigits2 (Zpos my)).
  set (e' := Z.min (fexp (d1 + ex - (d2 + ey))) (ex - ey)).
  set (s := ex - ey - e').
  assert (Hs : 0 <= s) by (subst s e'; lia).
  set (m' := match s with
             | 0 => Zpos mx
             | Zpos _ => Z.shiftl (Zpos mx) s
             | Zneg _ => 0
             end).
  assert (Hm' : m' = Zpos mx * 2 ^ s).
  { subst m'. destruct s as [|p|p] eqn:Es; try lia.
    apply Z.shiftl_mul_pow2. lia. }
  pose proof (Z.div_eucl_eq m' (Zpos my) ltac:(lia)) as Heq.
  pose proof (Z.mod_pos_bound m' (Zpos my) ltac:(lia)) as Hmod.
  unfold Z.modulo in Hmod.
  destruct (Z.div_eucl m' (Zpos my)) as [q r] eqn:Ediv.
  assert (Hq : q = m' / Zpos my) by (unfold Z.div; now rewrite Ediv).
  assert (Hps : 0 < 2 ^ s) by (apply Z.pow_pos_nonneg; lia).
  assert (Hq0 : 0 <= q) by (rewrite Hq; apply Z.div_pos; nia).
  split; [exact Hq0|].
  destruct (Zdigits2_bounds (Zpos mx) ltac:(lia)) as (Hd1 & Hl1 & Hh1).
  destruct (Zdigits2_bounds (Zpos my) ltac:(lia)) as (Hd2 & Hl2 & Hh2).
  fold d1 in Hd1, Hl1, Hh1. fold d2 in Hd2, Hl2, Hh2.
  assert (Hdq : d1 + s - d2 <= Zdigits2 q).
  { destruct (Z.le_gt_cases (d1 + s - d2) 0) as [Hn|Hp].
    - pose proof (Zdigits2_nonneg q). lia.
    - assert (Hlow : 2 ^ (d1 + s - d2 - 1) <= q).
      { rewrite Hq. apply Z.div_le_lower_bound; [lia|].
        rewrite Hm'.
        apply Z.le_trans with (2 ^ d2 * 2 ^ (d1 + s - d2 - 1)).
        - apply Z.mul_le_mono_nonneg_r; [apply Z.pow_nonneg|]; lia.
        - rewrite <- Z.pow_add_r by lia.
          replace (d2 + (d1 + s - d2 - 1)) with ((d1 - 1) + s) by lia.
          rewrite Z.pow_add_r by lia.
          apply Z.mul_le_mono_nonneg_r; lia. }
      assert (0 < 2 ^ (d1 + s - d2 - 1)) by (apply Z.pow_pos_nonneg; lia).
      apply Zdigits2_ge; lia. }
  subst s e'. rewrite !fexp_eq in *. lia.
Qed.

Lemma fdiv_valid (x y : spec_float) :
  valid x = true -> valid y = true -> valid (fdiv x y) = true.
Proof.
  intros Hx Hy. unfold fdiv, SFdiv.
  destruct x as [sx|sx| |sx mx ex], y as [sy|sy| |sy my ey]; try reflexivity.
  pose proof (SFdiv_core_binary_spec mx my ex ey) as Hq.
  destruct (SFdiv_core_binary prec emax (Zpos mx) ex (Zpos my) ey) as [[q e'] l].
  destruct Hq as [Hq He].
  eapply rounded_valid, binary_round_aux_rounded; assumption.
Qed.


(** *** Order *)

Lemma SFltb_finite (m1 m2 : positive) (e1 e2 : Z) :
  SFltb (S754_finite false m1 e1) (S754_finite false m2 e2) = true <->
  e1 < e2 \/ (e1 = e2 /\ Zpos m1 < Zpos m2).
Proof.
  unfold SFltb, SFcompare. change (Pos.compare_cont Eq m1 m2) with (m1 ?= m2)%positive.
  destruct (Z.compare_spec e1 e2); [destruct (Pos.compare_spec m1 m2)| |];
    split; intros; try discriminate; try reflexivity; lia.
Qed.

Lemma SFleb_finite (m1 m2 : positive) (e1 e2 : Z) :
  SFleb (S754_finite false m1 e1) (S754_finite false m2 e2) = true <->
  e1 < e2 \/ (e1 = e2 /\ Zpos m1 <= Zpos m2).
Proof.
  unfold SFleb, SFcompare. change (Pos.compare_cont Eq m1 m2) with (m1 ?= m2)%positive.
  destruct (Z.compare_spec e1 e2); [destruct (Pos.compare_spec m1 m2)| |];
    split; intros; try discriminate; try reflexivity; lia.
Qed.

(** Above a counter value there are positive numbers only. *)
Lemma SFltb_positive (v c : spec_float) :
  nonneg v = true -> SFltb v c = true -> positive_float c = true.
Proof.
  destruct v as [[]|[]| |[] mv ev]; try discriminate;
    destruct c as [[]|[]| |[] mc ec]; try discriminate; reflexivity.
Qed.

(** *** The difference that is added, and the sum *)

Lemma fsub_positive (v c : spec_float) :
  valid v = true -> nonneg v = true ->
  valid c = true -> SFltb v c = true ->
  positive_float (fsub c v) = true.
Proof.
  intros Hv Hn Hc Hlt.
  pose proof (SFltb_positive v c Hn Hlt) as Hp.
  destruct v as [[]|[]| |[] mv ev]; try discriminate;
    destruct c as [[]|[]| |[] mc ec]; try discriminate; try reflexivity.
  apply SFltb_finite in Hlt.
  cbn [valid valid_binary] in Hv, Hc.
  apply bounded_canonical in Hv as (Hdv & Hev & Hnv).
  apply bounded_canonical in Hc as (Hdc & Hec & Hnc).
  unfold fsub, SFsub, cond_Zopp.
  set (ez := Z.min ec ev).
  destruct (shl_align_spec mc ec ez) as [Ha _].
  destruct (shl_align_spec mv ev ez) as [Hb _].
  replace (Z.min ec ez) with ez in Ha by lia.
  replace (Z.min ev ez) with ez in Hb by lia.
  set (a := fst (shl_align mc ec ez)) in *.
  set (b := fst (shl_align mv ev ez)) in *.
  destruct (Zdigits2_bounds (Zpos mv) ltac:(lia)) as (_ & _ & Hhv).
  destruct (Zdigits2_bounds (Zpos mc) ltac:(lia)) as (_ & Hlc & _).
  assert (Hv53 : Zpos mv < 2 ^ 53).
  { eapply Z.lt_le_trans; [exact Hhv|]. apply Z.pow_le_mono_r; lia. }
  assert (Hab : Zpos b < Zpos a).
  { rewrite Ha, Hb. destruct Hlt as [Hlt|[Heq Hlt]].
    - replace (ev - ez) with 0 by lia. replace (ec - ez) with (ec - ev) by lia.
      assert (Hc52 : 2 ^ 52 <= Zpos mc).
      { replace (Zdigits2 (Zpos mc)) with 53 in Hlc by lia. exact Hlc. }
      assert (H2 : 2 ^ 1 <= 2 ^ (ec - ev)) by (apply Z.pow_le_mono_r; lia).
      change (2 ^ 1) with 2 in H2. change (2 ^ 53) with (2 ^ 52 * 2) in Hv53.
      nia.
    - replace (ev - ez) with 0 by lia. replace (ec - ez) with 0 by lia. lia. }
  destruct (Zpos a - Zpos b) as [|p|p] eqn:Ep; try lia.
  cbn [binary_normalize].
  apply binary_round_positive. lia.
Qed.

Lemma fadd_above (v d : spec_float) :
  valid v = true -> nonneg v = true ->
  valid d = true -> positive_float d = true ->
  SFleb v (fadd v d) = true /\ positive_float (fadd v d) = true.
Proof.
  intros Hv Hn Hd Hp.
  destruct v as [[]|[]| |[] mv ev]; try discriminate;
    destruct d as [[]|[]| |[] md ed]; try discriminate;
    try (split; reflexivity).
  cbn [valid valid_binary] in Hv, Hd.
  pose proof (bounded_elim _ _ Hv) as [Hcv _].
  apply bounded_canonical in Hv as (Hdv & Hev & Hnv).
  apply bounded_canonical in Hd as (Hdd & Hed & Hnd).
  unfold fadd, SFadd, cond_Zopp.
  set (ez := Z.min ev ed).
  destruct (shl_align_spec mv ev ez) as [Ha _].
  destruct (shl_align_spec md ed ez) as [Hb _].
  replace (Z.min ev ez) with ez in Ha by lia.
  replace (Z.min ed ez) with ez in Hb by lia.
  set (a := fst (shl_align mv ev ez)) in *.
  set (b := fst (shl_align md ed ez)) in *.
  change (Zpos a + Zpos b) with (Zpos (a + b)).
  cbn [binary_normalize].
  pose proof (binary_round_positive (a + b) ez ltac:(lia)) as Hpos.
  pose proof (binary_round_rounded false (a + b) ez) as Hr. cbv zeta in Hr.
  set (E := fexp (Zdigits2 (Zpos (a + b)) + ez)) in *.
  assert (Hpa : 0 < 2 ^ (ev - ez)) by (apply Z.pow_pos_nonneg; lia).
  assert (HE : ev <= E).
  { assert (Hda : Zdigits2 (Zpos a) = Zdigits2 (Zpos mv) + (ev - ez)).
    { rewrite Ha. apply Zdigits2_mul_pow2; lia. }
    pose proof (Zdigits2_mono (Zpos a) (Zpos (a + b)) ltac:(lia)) as Hm.
    subst E. rewrite fexp_eq in *. lia. }
  replace (Z.min ez E) with ez in Hr by lia.
  rewrite Z.sub_diag, Z.mul_1_r in Hr.
  split; [|exact Hpos].
  destruct Hr as [H0|m Hm Hb'|m H53 Hm Hb'|]; try reflexivity.
  - discriminate.
  - apply SFleb_finite.
    destruct (Z.eq_dec ev E) as [Heq|Hne]; [right|left; lia].
    split; [exact Heq|].
    apply Z.le_trans with (Zpos (a + b) / 2 ^ (E - ez)); [|lia].
    rewrite <- Heq.
    apply Z.le_trans with (Zpos a / 2 ^ (ev - ez)).
    + rewrite Ha, Z.div_mul by lia. lia.
    + apply Z.div_le_mono; lia.
  - apply SFleb_finite. left. lia.
Qed.

End Binary64.

(** ** The progress reporter *)

Section Reporter.

Example hundred_is_100 : float64 100 = hundred.
Proof. reflexivity. Qed.

Example half_way : percentage (at_count (payload_reader 1024 []) 512) = float64 50.
Proof. vm_compute. reflexivity. Qed.

(** After [init] the counter of the owner does not exist yet and reads
    as zero. *)
Lemma init_counter_ok (st : state) : counter_ok (snd (init st)) = true.
Proof. reflexivity. Qed.

Lemma percentage_valid (r : prometheusProgressReader) : valid (percentage r) = true.
Proof.
  unfold percentage.
  apply fmul_valid; [apply fdiv_valid; apply float64_valid|reflexivity].
Qed.

Lemma positive_not_negative (d : spec_float) :
  positive_float d = true -> SFltb d fzero = false /\ SFltb fzero d = true.
Proof. destruct d as [[]|[]| |[] m e]; try discriminate; now split. Qed.

Lemma float64_nonneg (n : Z) : 0 <= n -> nonneg (float64 n) = true.
Proof.
  intros Hn. unfold float64. destruct n as [|p|p]; try lia; [reflexivity|].
  cbn [binary_normalize].
  pose proof (binary_round_positive p 0 ltac:(lia)) as Hp.
  destruct (binary_round prec emax false p 0) as [[]|[]| |[] m e];
    try discriminate; reflexivity.
Qed.

(** A sum of two numbers that are not negative is not negative. *)
Lemma fadd_nonneg (x y : spec_float) :
  valid x = true -> nonneg x = true -> valid y = true -> nonneg y = true ->
  nonneg (fadd x y) = true.
Proof.
  intros Hx Hnx Hy Hny.
  destruct y as [[]|[]| |[] my ey]; try discriminate.
  - destruct x as [[]|[]| |[] mx ex]; try discriminate; reflexivity.
  - destruct x as [[]|[]| |[] mx ex]; try discriminate; reflexivity.
  - destruct (fadd_above x (S754_finite false my ey) Hx Hnx Hy eq_refl) as [_ Hp].
    destruct (fadd x (S754_finite false my ey)) as [[]|[]| |[] m e];
      try discriminate; reflexivity.
Qed.

Lemma published_owner_counter (st : state) :
  published st = counter_get (owner_counter st).
Proof. reflexivity. Qed.

(** The value of a counter in order is a valid number that is neither
    NaN nor negative. *)
Lemma published_ok (st : state) :
  counter_ok st = true -> valid (published st) = true /\ nonneg (published st) = true.
Proof.
  unfold counter_ok. rewrite published_owner_counter, !andb_true_iff.
  intros [[[Hv Hn] H0] _]. apply Z.leb_le in H0.
  unfold counter_get. split.
  - apply fadd_valid; [exact Hv|apply float64_valid].
  - apply fadd_nonneg; try assumption; [apply float64_valid|now apply float64_nonneg].
Qed.

Lemma lookup_ensure (l : string) (reg : gmap string counter) :
  default counter_zero
    (match reg !! l with
     | Some _ => reg
     | None => <[ l := counter_zero ]> reg
     end !! l) = default counter_zero (reg !! l).
Proof.
  destruct (reg !! l) eqn:El.
  - now rewrite El.
  - now rewrite lookup_insert_eq.
Qed.

Lemma Counter_value_ensure (l : string) (reg : gmap string counter) :
  Counter_value l (match reg !! l with
                   | Some _ => reg
                   | None => <[ l := counter_zero ]> reg
                   end) = Counter_value l reg.
Proof. unfold Counter_value. now rewrite lookup_ensure. Qed.

(** One tick: it returns, and the counter of the owner afterwards is the
    counter before, or the counter before with the difference to the
    percentage added when the percentage is above the value read. *)
Lemma updateProgress_counter (r : prometheusProgressReader) (st : state) :
  counter_ok st = true ->
  fst (updateProgress r st) = Returned tt /\
  ownerUID (snd (updateProgress r st)) = ownerUID st /\
  os (snd (updateProgress r st)) = os st /\
  owner_counter (snd (updateProgress r st)) =
    if (0 <? total r) && SFltb (published st) (percentage r)
    then counter_add
           (uint64_of_float64 (os st) (fsub (percentage r) (published st)))
           (fsub (percentage r) (published st)) (owner_counter st)
    else owner_counter st.
Proof.
  intros Hok. destruct (published_ok st Hok) as [Hv Hn].
  unfold updateProgress. fold (percentage r).
  destruct (0 <? total r); [|now repeat split]. cbn [andb].
  unfold Counter_Write, Counter_Add, WithLabelValues, klog_V_Info, emit, modify, gets,
    panic, mbind, M_bind, mret, M_ret. cbn.
  rewrite Counter_value_ensure. fold (published st).
  destruct (SFltb (published st) (percentage r)) eqn:Hlt.
  - pose proof (fsub_positive _ _ Hv Hn (percentage_valid r) Hlt) as Hpos.
    apply positive_not_negative in Hpos as [Hneg _].
    rewrite Hneg. cbn.
    repeat split.
    unfold owner_counter. cbn.
    now rewrite lookup_insert_eq, !lookup_ensure.
  - cbn. repeat split.
    unfold owner_counter. cbn. apply lookup_ensure.
Qed.

(** A tick keeps the counter in order. *)
Lemma updateProgress_ok (r : prometheusProgressReader) (st : state) :
  counter_ok st = true ->
  counter_ok (snd (updateProgress r st)) = true.
Proof.
  intros Hok.
  destruct (updateProgress_counter r st Hok) as (_ & _ & _ & Hc).
  destruct (published_ok st Hok) as [Hv Hn].
  unfold counter_ok in *. rewrite Hc.
  destruct ((0 <? total r) && SFltb (published st) (percentage r)) eqn:Hcond;
    [|exact Hok].
  apply andb_true_iff in Hcond as [_ Hlt].
  rewrite !andb_true_iff in Hok. destruct Hok as [[[Hvb Hnb] H0] Hmax].
  pose proof (fsub_positive _ _ Hv Hn (percentage_valid r) Hlt) as Hpos.
  pose proof (fsub_valid _ _ (percentage_valid r) Hv) as Hvd.
  unfold counter_add.
  destruct (SFeqb _ _); cbn [valBits valInt].
  - rewrite Hvb, Hnb. cbn [andb]. apply andb_true_iff.
    pose proof (Z.mod_pos_bound
                  (valInt (owner_counter st)
                   + uint64_of_float64 (os st) (fsub (percentage r) (published st)))
                  (2 ^ 64) ltac:(lia)) as Hm.
    unfold wrap64, maxUint64. split; [apply Z.leb_le|apply Z.leb_le]; lia.
  - rewrite H0, Hmax, !andb_true_r. apply andb_true_iff. split.
    + now apply fadd_valid.
    + destruct (fadd_above _ _ Hvb Hnb Hvd Hpos) as [_ Hp].
      destruct (fadd (valBits (owner_counter st)) (fsub (percentage r) (published st)))
        as [[]|[]| |[] m e]; try discriminate; reflexivity.
Qed.



End Reporter.

(** ** The size header, both ways *)

Lemma hex_digit_hex_char (upper : bool) (d : Z) :
  0 <= d < 16 -> hex_digit (hex_char upper d) = Some d.
Proof.
  intros Hd. unfold hex_char.
  rewrite <- (Z2Nat.id d) at 2 by lia.
  assert (Hk : (Z.to_nat d < 16)%nat) by lia.
  revert Hk. generalize (Z.to_nat d). intros k Hk.
  destruct upper; do 16 (destruct k as [|k]; [reflexivity|]); lia.
Qed.

Lemma hex_value_snoc (s : list byte) (b : byte) :
  hex_value (s ++ [b]) = 16 * hex_value s + default 0 (hex_digit b).
Proof. unfold hex_value. now rewrite fold_left_app. Qed.

Lemma to_hex_spec (upper : bool) (width : nat) : forall n : Z,
  0 <= n < 16 ^ Z.of_nat width ->
  length (to_hex upper width n) = width /\
  forallb is_hex (to_hex upper width n) = true /\
  hex_value (to_hex upper width n) = n.
Proof.
  induction width as [|w IH]; intros n Hn.
  - cbn in *. repeat split; try reflexivity. change (hex_value []) with 0. lia.
  - rewrite Nat2Z.inj_succ, Z.pow_succ_r in Hn by lia.
    assert (Hq : 0 <= n / 16 < 16 ^ Z.of_nat w).
    { split; [apply Z.div_pos; lia|apply Z.div_lt_upper_bound; lia]. }
    assert (Hr : 0 <= n mod 16 < 16) by (apply Z.mod_pos_bound; lia).
    destruct (IH (n / 16) Hq) as (Hl & Hh & Hv).
    cbn [to_hex]. repeat split.
    + rewrite length_app, Hl. cbn. lia.
    + rewrite forallb_app, Hh. cbn. unfold is_hex.
      now rewrite hex_digit_hex_char.
    + rewrite hex_value_snoc, Hv, hex_digit_hex_char by assumption.
      cbn [default]. unfold id. pose proof (Z.div_mod n 16). lia.
Qed.

(** The value of a text of hexadecimal digits lies below [16^length]. *)
Lemma hex_value_bounds (s : list byte) :
  0 <= hex_value s < 16 ^ Z.of_nat (length s).
Proof.
  induction s as [|b s IH] using rev_ind.
  - cbn. lia.
  - rewrite hex_value_snoc, length_app, Nat2Z.inj_add. cbn [length].
    rewrite Z.pow_add_r by lia. change (16 ^ Z.of_nat 1) with 16.
    assert (Hd : 0 <= default 0 (hex_digit b) < 16).
    { destruct (hex_digit b) as [d|] eqn:Ed; cbn; [|lia].
      now apply hex_digit_range in Ed. }
    lia.
Qed.

(** X1: round trip of the size header: whatever the reader, when the read of
    [readTotal] hands over the 16 hexadecimal digits of a number below
    [2^64], in lower or in upper case, [readTotal] returns that number. *)
Theorem readTotal_round_trip {R} `{io_Reader R} (r r' : R) (st : state)
  (upper : bool) (n : Z) :
  0 <= n <= maxUint64 ->
  Read r 16 = ((to_hex upper 16 n, None), r') ->
  readTotal r st = (Returned ((n, None), r'), st).
Proof.
  intros Hn Hread.
  destruct (to_hex_spec upper 16 n) as (Hl & Hh & Hv).
  { unfold maxUint64 in Hn. change (16 ^ Z.of_nat 16) with (2 ^ 64). lia. }
  rewrite readTotal_spec. unfold readTotal_result, readTotal_log.
  rewrite Hread, Hl, Hh, Hv. cbn.
  destruct st; unfold with_trace; cbn. now rewrite app_nil_r.
Qed.

Lemma readTotal_round_trip_witness :
  readTotal [Data (to_hex true 16 48879)] (initial sample_env) =
    (Returned ((48879, None), []), initial sample_env).
Proof.
  refine (readTotal_round_trip [Data (to_hex true 16 48879)] []
            (initial sample_env) true 48879 _ eq_refl).
  vm_compute. split; discriminate.
Defined.

(** What [readTotal_result] can be: an error with the size 0, or the
    value of 16 hexadecimal digits that one read delivered. *)
Lemma readTotal_result_inv {R} `{io_Reader R} (r f : R) (v : Z) (err : option error) :
  readTotal_result r = ((v, err), f) ->
  0 <= v <= maxUint64 /\
  (err <> None -> v = 0) /\
  (err = None ->
     length (fst (fst (Read r 16))) = 16%nat /\
     forallb is_hex (fst (fst (Read r 16))) = true /\
     v = hex_value (fst (fst (Read r 16)))).
Proof.
  unfold readTotal_result.
  destruct (Read r 16) as [[bs [e|]] r']; cbn [fst].
  - intros [= <- <- _]. unfold maxUint64.
    split; [lia|]. split; [reflexivity|discriminate].
  - destruct (Nat.eqb_spec (length bs) 16) as [Hl|Hl]; cbn [negb].
    + destruct (forallb is_hex bs) eqn:Hh.
      * intros [= <- <- _].
        pose proof (hex_value_bounds bs) as Hb. rewrite Hl in Hb.
        change (16 ^ Z.of_nat 16) with (2 ^ 64) in Hb. unfold maxUint64.
        split; [lia|]. split; [congruence|]. now intros _.
      * intros [= <- <- _]. unfold maxUint64.
        split; [lia|]. split; [reflexivity|discriminate].
    + intros [= <- <- _]. unfold maxUint64.
      split; [lia|]. split; [reflexivity|discriminate].
Qed.

(** X2: in any state, a size that [readTotal] returns without error is a
    [uint64], and it is the value of the 16 bytes its one read delivered,
    which are all hexadecimal digits; beside an error the size is 0. *)
Theorem readTotal_size_bounds {R} `{io_Reader R} (r f : R) (st : state)
  (v : Z) (err : option error) :
  fst (readTotal r st) = Returned ((v, err), f) ->
  0 <= v <= maxUint64 /\
  (err <> None -> v = 0) /\
  (err = None ->
     length (fst (fst (Read r 16))) = 16%nat /\
     forallb is_hex (fst (fst (Read r 16))) = true /\
     v = hex_value (fst (fst (Read r 16)))).
Proof.
  rewrite readTotal_spec. cbn [fst].
  intros Hret. injection Hret as Hret.
  now apply (readTotal_result_inv r f).
Qed.

Lemma readTotal_size_bounds_witness :
  0 <= 1024 <= maxUint64 /\
  (@None error <> None -> 1024 = 0) /\
  (@None error = None ->
     length (fst (fst (Read [Data header_1024] 16))) = 16%nat /\
     forallb is_hex (fst (fst (Read [Data header_1024] 16))) = true /\
     1024 = hex_value (fst (fst (Read [Data header_1024] 16)))).
Proof.
  exact (readTotal_size_bounds [Data header_1024] [] (initial sample_env)
           1024 None eq_refl).
Defined.

(** ** How a run ends, and in which order it acts *)

Lemma filter_readTotal_log {R} `{io_Reader R} (p : event -> bool) (r : R) :
  (forall err, p (EvLog None (LogError err)) = false) ->
  List.filter p (readTotal_log r) = [].
Proof.
  intros Hp. unfold readTotal_log.
  destruct (snd (fst (Read r 16))) as [err|]; cbn; [|reflexivity].
  now rewrite Hp.
Qed.

(** Normal form of the filter of a trace given stretch by stretch. *)
Ltac filter_norm :=
  unfold startup, header_phase, payload_phase, fatal, dispatch_event, dispatch_log;
  rewrite ?List.filter_app, ?filter_readTotal_log by reflexivity;
  repeat match goal with
    | |- context [IsNotExist ?x] => destruct (IsNotExist x)
    end;
  cbn.

(** X4: a run that completes has released all it held, in the reverse order
    of the [defer] statements: it closed the payload file, removed the
    temporary directory and flushed the log, and these are its last
    calls. *)
Theorem completion_releases_all (e : env) :
  fst (run e) = Returned tt ->
  open_files (snd (run e)) = ∅ /\
  temp_dirs (snd (run e)) = ∅ /\
  exists pre d,
    TempDir_result e = inl d /\
    trace (snd (run e)) = pre ++ [EvClose 1; EvRemoveAll d; EvFlush] /\
    List.filter is_deferred_event pre = [].
Proof.
  by_paths e; intros Hret; try discriminate.
  repeat split.
  exists (startup d ++ header_phase e src ++ payload_phase e size src' ++
          [EvLog (Some 1) (LogText "clone complete")]), d.
  split; [assumption|]. split.
  - now rewrite <- !app_assoc.
  - filter_norm; reflexivity.
Qed.

Lemma completion_releases_all_witness :
  open_files (snd (run sample_env)) = ∅ /\
  temp_dirs (snd (run sample_env)) = ∅ /\
  exists pre d,
    TempDir_result sample_env = inl d /\
    trace (snd (run sample_env)) = pre ++ [EvClose 1; EvRemoveAll d; EvFlush] /\
    List.filter is_deferred_event pre = [].
Proof.
  apply (completion_releases_all sample_env). vm_compute. reflexivity.
Defined.

(** X5: a run that ends through [os.Exit] ends with status 1 and has run none
    of the deferred calls of [main]: the log is not flushed, the temporary
    directory is still there, and the payload file, when it was opened, is
    still open. *)
Theorem exit_runs_no_deferred_call (e : env) (c : Z) :
  fst (run e) = Exited c ->
  c = 1 /\
  List.filter is_deferred_event (trace (snd (run e))) = [] /\
  (exists d, TempDir_result e = inl d /\ temp_dirs (snd (run e)) = {[ d ]}) /\
  (In (EvOpen (pipe_of e) (inl 1%nat)) (trace (snd (run e))) ->
   open_files (snd (run e)) = {[ 1%nat ]}).
Proof.
  by_paths e; intros Hex; try discriminate; injection Hex as <-.
  all: split; [reflexivity|]; split; [filter_norm; reflexivity|].
  all: split; [now exists d|].
  all: intros Hin.
  all: try reflexivity.
  all: exfalso; revert Hin.
  all: unfold startup, header_phase, fatal; cbn; rewrite ?in_app_iff; cbn.
  all: intros Hin; repeat destruct Hin as [Hin|Hin]; try discriminate; try contradiction.
  all: apply readTotal_log_In in Hin as [? Hin]; discriminate.
Qed.

Lemma exit_runs_no_deferred_call_witness :
  1 = 1 /\
  List.filter is_deferred_event (trace (snd (run failing_device_env))) = [] /\
  (exists d, TempDir_result failing_device_env = inl d /\
             temp_dirs (snd (run failing_device_env)) = {[ d ]}) /\
  (In (EvOpen (pipe_of failing_device_env) (inl 1%nat))
      (trace (snd (run failing_device_env))) ->
   open_files (snd (run failing_device_env)) = {[ 1%nat ]}).
Proof.
  apply (exit_runs_no_deferred_call failing_device_env 1). vm_compute. reflexivity.
Defined.

(** X6: the log is flushed exactly by the runs that do not end through
    [os.Exit]: those that complete, and the one that panics. *)
Theorem flush_unless_exit (e : env) :
  In EvFlush (trace (snd (run e))) <-> exit_status (fst (run e)) <> 1.
Proof.
  assert (Hf : In EvFlush (trace (snd (run e))) <->
               List.filter (fun ev => match ev with EvFlush => true | _ => false end)
                 (trace (snd (run e))) <> []).
  { split.
    - intros Hin Hnil.
      assert (Hin' : In EvFlush (List.filter
                 (fun ev => match ev with EvFlush => true | _ => false end)
                 (trace (snd (run e))))) by (apply List.filter_In; now split).
      rewrite Hnil in Hin'. contradiction.
    - intros Hne.
      destruct (List.filter _ (trace (snd (run e)))) as [|ev t] eqn:Ef; [contradiction|].
      assert (Hin : In ev (ev :: t)) by now left.
      rewrite <- Ef in Hin. apply List.filter_In in Hin as [Hin Hev].
      destruct ev; try discriminate. exact Hin. }
  rewrite Hf. clear Hf.
  by_paths e; cbn [exit_status]; filter_norm; split; intros; try discriminate; try lia;
    try contradiction.
Qed.

(** X7: the reporter is started, and the marker inspected, once the payload
    file is open and not before: a run that fails earlier does neither, a
    run that gets there does each once, the reporter first. *)
Theorem dispatch_after_payload_open (e : env) :
  (In (EvOpen (pipe_of e) (inl 1%nat)) (trace (snd (run e))) /\
   List.filter is_dispatch_step (trace (snd (run e))) =
     [EvGo; EvStat (ImporterWriteBlockPath e)]) \/
  (~ In (EvOpen (pipe_of e) (inl 1%nat)) (trace (snd (run e))) /\
   List.filter is_dispatch_step (trace (snd (run e))) = []).
Proof.
  by_paths e.
  1-5: right; split; [|filter_norm; reflexivity].
  1-5: unfold startup, header_phase, fatal; cbn; rewrite ?in_app_iff; cbn.
  1-5: intros Hin; repeat destruct Hin as [Hin|Hin]; try discriminate; try contradiction.
  1-2: apply readTotal_log_In in Hin as [? Hin]; discriminate.
  all: left; split; [|filter_norm; reflexivity].
  all: unfold startup, header_phase, payload_phase; rewrite !in_app_iff; cbn.
  all: right; right; left; right; left; reflexivity.
Qed.

(** X8: the only path the process ever opens is the one of the flag, and it
    opens it at most twice. *)
Theorem opens_only_the_pipe (e : env) :
  (forall p r, In (EvOpen p r) (trace (snd (run e))) -> p = pipe_of e) /\
  (length (List.filter is_open_event (trace (snd (run e)))) <= 2)%nat.
Proof.
  split.
  - intros p r Hin.
    assert (Hf : In (EvOpen p r) (List.filter is_open_event (trace (snd (run e)))))
      by (apply List.filter_In; now split).
    clear Hin. revert Hf.
    by_paths e; filter_norm; intros Hin;
      repeat destruct Hin as [Hin|Hin]; try contradiction; congruence.
  - by_paths e; filter_norm; lia.
Qed.

(** X9: an error of [os.Stat] other than "does not exist" selects the block
    device as well: the raw writer is called on the marker path, and the
    extractor is not called. *)
Theorem stat_error_selects_block_device (e : env) (serr : error) :
  In (EvOpen (pipe_of e) (inl 1%nat)) (trace (snd (run e))) ->
  Stat_result e (ImporterWriteBlockPath e) = Some serr ->
  serr <> ErrNotExist ->
  exists size src',
    consumer_events (trace (snd (run e))) =
      [EvStreamDataToFile (payload_reader size src') (ImporterWriteBlockPath e)] /\
    In (EvLog (Some 3) (LogText "Writing data to block device"))
       (trace (snd (run e))).
Proof.
  intros Hin Hstat Hne.
  assert (Hno : IsNotExist (Stat_result e (ImporterWriteBlockPath e)) = false).
  { rewrite Hstat. destruct serr; try reflexivity. contradiction. }
  assert (Hch : In (EvOpen (pipe_of e) (inl 1%nat))
                  (channel_events (trace (snd (run e))))).
  { apply List.filter_In. now split. }
  clear Hin. revert Hch.
  by_paths e; channel_norm; consumer_norm; cbn [In]; intros Hin.
  1-5: repeat destruct Hin as [Hin|Hin]; try discriminate; try contradiction.
  all: exists size, src'; unfold dispatch_event, payload_phase, dispatch_log.
  all: rewrite Hno; split; [reflexivity|].
  all: rewrite !in_app_iff; cbn; tauto.
Qed.

Lemma stat_error_selects_block_device_witness :
  exists size src',
    consumer_events (trace (snd (run denied_marker_env))) =
      [EvStreamDataToFile (payload_reader size src')
         (ImporterWriteBlockPath denied_marker_env)] /\
    In (EvLog (Some 3) (LogText "Writing data to block device"))
       (trace (snd (run denied_marker_env))).
Proof.
  apply (stat_error_selects_block_device denied_marker_env (ErrOS "permission denied")).
  - vm_compute. do 7 right. left. reflexivity.
  - reflexivity.
  - discriminate.
Defined.

(** X10: the total of the progress reader is the number of the header: when a
    writer is called, the first file delivered sixteen hexadecimal digits
    in one read, and the reader handed to the writer has their value as
    its total and a count of zero. *)
Theorem total_is_header_value (e : env) (c : event) :
  In c (consumer_events (trace (snd (run e)))) ->
  exists (src : Source) (r : prometheusProgressReader) (p : string),
    OpenFile_result e (pipe_of e) 0 = inl src /\
    (c = EvStreamDataToFile r p \/ c = EvUnArchiveTar r p) /\
    let header := fst (fst (Read (header_file src) 16)) in
    length header = 16%nat /\
    forallb is_hex header = true /\
    total r = hex_value header /\
    0 <= total r <= maxUint64 /\
    Current (counting r) = 0.
Proof.
  by_paths e; consumer_norm; cbn [In]; intros Hin; try contradiction.
  all: destruct Hin as [<-|[]].
  all: apply readTotal_result_inv in Hr as (Hrange & _ & Hok).
  all: destruct (Hok eq_refl) as (Hlen & Hhex & Hval).
  all: exists src, (payload_reader size src').
  all: unfold dispatch_event;
    destruct (IsNotExist (Stat_result e (ImporterWriteBlockPath e))).
  all: eexists; split; [assumption|]; split; [first [now left|now right]|].
  all: cbn; repeat split; try assumption; try lia.
Qed.

Lemma total_is_header_value_witness :
  exists (src : Source) (r : prometheusProgressReader) (p : string),
    OpenFile_result sample_env (pipe_of sample_env) 0 = inl src /\
    (EvUnArchiveTar (payload_reader 1024 [Data (replicate 1024 "a"%byte)]) "."
       = EvStreamDataToFile r p \/
     EvUnArchiveTar (payload_reader 1024 [Data (replicate 1024 "a"%byte)]) "."
       = EvUnArchiveTar r p) /\
    let header := fst (fst (Read (header_file src) 16)) in
    length header = 16%nat /\
    forallb is_hex header = true /\
    total r = hex_value header /\
    0 <= total r <= maxUint64 /\
    Current (counting r) = 0.
Proof.
  apply (total_is_header_value sample_env).
  vm_compute. left. reflexivity.
Defined.

(** X3: [collectTotalSize] in any state: it logs, opens the pipe of the flag
    and, when that fails, returns the error with size 0 and no file to
    close; otherwise it returns what [readTotal] returns on the new file,
    error included, and has closed that file by then.  An error always
    comes with size 0. *)
Theorem collectTotalSize_result (st : state) :
  let pipe := namedPipe st in
  let k := opens st in
  match OpenFile_result (os st) pipe k with
  | inr err =>
      fst (collectTotalSize st) = Returned (0, Some err) /\
      trace (snd (collectTotalSize st)) =
        trace st ++ [EvLog (Some 3) (LogText "Reading total size");
                     EvOpen pipe (inr err)] /\
      open_files (snd (collectTotalSize st)) = open_files st
  | inl src =>
      let out := {| fd := k; pending := src |} in
      fst (collectTotalSize st) = Returned (fst (readTotal_result out)) /\
      trace (snd (collectTotalSize st)) =
        trace st ++ [EvLog (Some 3) (LogText "Reading total size");
                     EvOpen pipe (inl k)] ++ readTotal_log out ++ [EvClose k] /\
      open_files (snd (collectTotalSize st)) = open_files st ∖ {[ k ]}
  end /\
  opens (snd (collectTotalSize st)) = S k /\
  forall v err, fst (collectTotalSize st) = Returned (v, Some err) -> v = 0.
Proof.
  unfold collectTotalSize, defer, klog_V_Info, os_OpenFile, File_Close, emit,
    modify, gets, mbind, M_bind, mret, M_ret.
  cbn -[readTotal].
  destruct (OpenFile_result (os st) (namedPipe st) (opens st)) as [src|err];
    cbn -[readTotal].
  - rewrite readTotal_spec.
    destruct (readTotal_result {| fd := opens st; pending := src |}) as [[v err] f] eqn:Hr.
    cbn. split; [|split; [reflexivity|]].
    + split; [reflexivity|]. split; [now rewrite <- !app_assoc|]. set_equal.
    + intros v' err' [= -> ->].
      apply readTotal_result_inv in Hr as (_ & Hz & _). apply Hz. discriminate.
  - split; [|split; [reflexivity|now intros v err' [= <- _]]].
    split; [reflexivity|]. split; [now rewrite <- !app_assoc|reflexivity].
Qed.

(** ** The reporter and the counter vector *)

(** X12: the reporter touches the counter of the owner and nothing else: the
    counters of all other labels, the descriptors, the temporary
    directories and the globals are after any number of ticks what they
    were before, whatever the counter of the owner held. *)
Theorem reporter_touches_owner_only (r : prometheusProgressReader) (counts : list Z) :
  forall st : state,
  let st' := snd (timedUpdateProgress r counts st) in
  (forall l, l <> ownerUID st -> progress st' !! l = progress st !! l) /\
  ownerUID st' = ownerUID st /\ namedPipe st' = namedPipe st /\
  open_files st' = open_files st /\ opens st' = opens st /\
  temp_dirs st' = temp_dirs st /\ os st' = os st.
Proof.
  induction counts as [|c counts IH]; intros st; [now repeat split|].
  assert (Hone : let st1 := snd (updateProgress (at_count r c) st) in
    (forall l, l <> ownerUID st -> progress st1 !! l = progress st !! l) /\
    ownerUID st1 = ownerUID st /\ namedPipe st1 = namedPipe st /\
    open_files st1 = open_files st /\ opens st1 = opens st /\
    temp_dirs st1 = temp_dirs st /\ os st1 = os st).
  { unfold updateProgress.
    destruct (0 <? total (at_count r c)); [|now repeat split].
    unfold Counter_Write, Counter_Add, WithLabelValues, klog_V_Info, emit, modify,
      gets, panic, mbind, M_bind, mret, M_ret. cbn.
    assert (He : forall l reg, l <> ownerUID st ->
              match reg !! ownerUID st with
              | Some _ => reg
              | None => <[ ownerUID st := counter_zero ]> reg
              end !! l = (reg : gmap string counter) !! l).
    { intros l reg Hl. destruct (reg !! ownerUID st); [reflexivity|].
      now rewrite lookup_insert_ne. }
    destruct (SFltb _ _); cbn; [destruct (SFltb _ fzero); cbn|].
    all: repeat split.
    all: intros l Hl; rewrite ?lookup_insert_ne, ?He by congruence; reflexivity. }
  cbn [timedUpdateProgress]. unfold mbind, M_bind.
  cbv zeta in Hone.
  destruct (updateProgress (at_count r c) st) as [[[]|code|err] st1]; cbn [snd] in *.
  - specialize (IH st1). cbv zeta in IH.
    destruct Hone as (Hl & Ho & Hn & Hf & Hk & Hd & He).
    destruct IH as (Hl' & Ho' & Hn' & Hf' & Hk' & Hd' & He').
    repeat split; try congruence.
    intros l Hne. rewrite Hl' by congruence. now apply Hl.
  - exact Hone.
  - exact Hone.
Qed.

(** A tick from a state whose counter is in order: it adds to the trace
    the read of the counter, the addition when the percentage is above
    the value read, and the progress line. *)
Lemma updateProgress_trace (r : prometheusProgressReader) (st : state) :
  counter_ok st = true ->
  trace (snd (updateProgress r st)) =
    trace st ++ tick_events (ownerUID st) (published st) r.
Proof.
  intros Hok. destruct (published_ok st Hok) as [Hv Hn].
  unfold updateProgress, tick_events. fold (percentage r).
  destruct (0 <? total r); [|now rewrite app_nil_r].
  unfold Counter_Write, Counter_Add, WithLabelValues, klog_V_Info, emit, modify, gets,
    panic, mbind, M_bind, mret, M_ret. cbn.
  rewrite Counter_value_ensure. fold (published st).
  destruct (SFltb (published st) (percentage r)) eqn:Hlt.
  - pose proof (fsub_positive _ _ Hv Hn (percentage_valid r) Hlt) as Hpos.
    apply positive_not_negative in Hpos as [Hneg _].
    rewrite Hneg. cbn. now rewrite <- !app_assoc.
  - cbn. now rewrite <- !app_assoc.
Qed.

(** X13: the reporter writes one progress line per tick, in the order of the
    ticks, with the percentage of that tick; it reads the counter of the
    owner once per tick; and whatever it adds, it adds to the counter of
    the owner, a valid and strictly positive amount. *)
Theorem reporter_trace (r : prometheusProgressReader) (counts : list Z) :
  forall st : state,
  counter_ok st = true ->
  0 < total r ->
  exists t : list event,
    trace (snd (timedUpdateProgress r counts st)) = trace st ++ t /\
    List.filter is_progress_log t =
      map (fun c => EvLog (Some 1) (LogProgress (percentage (at_count r c)))) counts /\
    List.filter (fun ev => match ev with EvMetricWrite _ => true | _ => false end) t =
      map (fun _ => EvMetricWrite (ownerUID st)) counts /\
    (forall l v, In (EvMetricAdd l v) t ->
       l = ownerUID st /\ valid v = true /\ positive_float v = true) /\
    (forall ev, In ev t ->
       is_progress_log ev = true \/ is_metric_event ev = true).
Proof.
  intros st Hok Ht. revert st Hok.
  induction counts as [|c counts IH]; intros st Hok.
  - exists []. cbn. rewrite app_nil_r. repeat apply conj; try reflexivity;
      intros; contradiction.
  - cbn [timedUpdateProgress]. unfold mbind, M_bind.
    pose proof (updateProgress_trace (at_count r c) st Hok) as Htr.
    destruct (updateProgress_counter (at_count r c) st Hok) as (Hret & Hown & _).
    pose proof (updateProgress_ok (at_count r c) st Hok) as Hok'.
    destruct (updateProgress (at_count r c) st) as [o st1].
    cbn [fst snd] in *. subst o.
    destruct (IH st1 Hok') as (t & Het & Hlog & Hwr & Hadd & Hall).
    exists (tick_events (ownerUID st) (published st) (at_count r c) ++ t).
    rewrite Het, Htr, <- app_assoc. split; [reflexivity|].
    rewrite !List.filter_app, Hlog, Hwr, Hown.
    unfold tick_events. cbn [total at_count].
    destruct (Z.ltb_spec 0 (total r)) as [_|Hn]; [|lia].
    destruct (published_ok st Hok) as [Hv Hn].
    destruct (SFltb (published st) (percentage (at_count r c))) eqn:Hlt.
    + pose proof (fsub_positive _ _ Hv Hn (percentage_valid (at_count r c)) Hlt) as Hpos.
      pose proof (fsub_valid _ _ (percentage_valid (at_count r c)) Hv) as Hvd.
      cbn. repeat apply conj; try reflexivity.
      * intros l v [Hin|[Hin|[Hin|Hin]]]; try discriminate.
        -- injection Hin as <- <-. now repeat split.
        -- rewrite <- Hown. now apply Hadd.
      * intros ev [<-|[<-|[<-|Hin]]]; cbn; try tauto. now apply Hall.
    + cbn. repeat apply conj; try reflexivity.
      * intros l v [Hin|[Hin|Hin]]; try discriminate.
        rewrite <- Hown. now apply Hadd.
      * intros ev [<-|[<-|Hin]]; cbn; try tauto. now apply Hall.
Qed.

Lemma reporter_trace_witness :
  let st := snd (init (initial sample_env)) in
  let r := payload_reader 1024 [] in
  exists t : list event,
    trace (snd (timedUpdateProgress r [0; 512; 256; 1024] st)) = trace st ++ t /\
    List.filter is_progress_log t =
      map (fun c => EvLog (Some 1) (LogProgress (percentage (at_count r c))))
        [0; 512; 256; 1024] /\
    List.filter (fun ev => match ev with EvMetricWrite _ => true | _ => false end) t =
      map (fun _ => EvMetricWrite (ownerUID st)) [0; 512; 256; 1024] /\
    (forall l v, In (EvMetricAdd l v) t ->
       l = ownerUID st /\ valid v = true /\ positive_float v = true) /\
    (forall ev, In ev t ->
       is_progress_log ev = true \/ is_metric_event ev = true).
Proof.
  intros st r.
  apply (reporter_trace r [0; 512; 256; 1024] st); [vm_compute; reflexivity|].
  cbn. lia.
Defined.

(** ** The range of the percentage *)

Section Binary64Range.

Local Abbreviation fexp := (SpecFloat.fexp prec emax).

(** [binary_round_aux] overflows at the largest exponent only. *)
Lemma binary_round_aux_overflow (sx s : bool) (m e : Z) (l : location) :
  0 <= m ->
  e <= fexp (Zdigits2 m + e) ->
  binary_round_aux prec emax sx m e l = S754_infinity s ->
  971 <= fexp (Zdigits2 m + e).
Proof.
  intros Hm He.
  destruct (truncated_mantissa m e Hm He) as (Hm1 & Hsub & HE).
  destruct (shr_fexp_spec m e l Hm He) as [Hs1 Hs2].
  unfold binary_round_aux.
  destruct (shr_fexp prec emax m e l) as [mrs' e'] eqn:E1.
  cbn [fst snd] in Hs1, Hs2. subst e'.
  set (E := fexp (Zdigits2 m + e)) in *.
  pose proof (round_nearest_even_bounds (shr_m mrs') (loc_of_shr_record mrs')) as Hr.
  set (m2 := round_nearest_even (shr_m mrs') (loc_of_shr_record mrs')) in *.
  rewrite Hs1 in Hr.
  assert (Hf : E <= fexp (Zdigits2 m2 + E) <= E + 1).
  { pose proof (Zdigits2_nonneg m2) as Hd0.
    assert (Hd : Zdigits2 m2 <= 54) by (apply Zdigits2_le; lia).
    assert (Hd' : 53 <= Zdigits2 m2 \/ E = -1074).
    { destruct (Z.le_gt_cases (2 ^ 52) (m / 2 ^ (E - e))) as [Hn|Hl]; [left|right; lia].
      apply Zdigits2_ge; lia. }
    rewrite fexp_eq. lia. }
  destruct (shr_fexp_spec m2 E loc_Exact ltac:(lia) ltac:(lia)) as [Ht1 Ht2].
  destruct (shr_fexp prec emax m2 E loc_Exact) as [mrs'' e''].
  cbn [fst snd] in Ht1, Ht2. subst e''.
  destruct (shr_m mrs''); try discriminate.
  change (emax - prec) with 971.
  destruct (Z.leb_spec (fexp (Zdigits2 m2 + E)) 971); [discriminate|lia].
Qed.

Lemma binary_round_overflow (sx s : bool) (mx : positive) (ex : Z) :
  binary_round prec emax sx mx ex = S754_infinity s ->
  971 <= fexp (Zdigits2 (Zpos mx) + ex).
Proof.
  unfold binary_round.
  destruct (shl_align_spec mx ex (fexp (Zdigits2 (Zpos mx) + ex))) as [Hm He].
  change (fexp (Zpos (digits2_pos mx) + ex)) with (fexp (Zdigits2 (Zpos mx) + ex)).
  set (E := fexp (Zdigits2 (Zpos mx) + ex)) in *.
  destruct (shl_align mx ex E) as [mz ez].
  cbn [fst snd] in Hm, He. subst ez.
  assert (Hp : 0 < 2 ^ (ex - Z.min ex E)) by (apply Z.pow_pos_nonneg; lia).
  assert (Hd : Zdigits2 (Zpos mz) + Z.min ex E = Zdigits2 (Zpos mx) + ex).
  { rewrite Hm, Zdigits2_mul_pow2 by lia. lia. }
  intros Hinf.
  pose proof (binary_round_aux_overflow sx s (Zpos mz) (Z.min ex E) loc_Exact) as Hov.
  rewrite Hd in Hov. fold E in Hov. apply Hov; [lia|lia|exact Hinf].
Qed.

(** A rounded number has its leading bit where the number rounded has
    it, or one position above. *)
Lemma rounded_magnitude (sx : bool) (m1 E : Z) (x : spec_float) (m : positive) (e : Z) :
  rounded sx m1 E x -> x = S754_finite sx m e -> E <= e <= E + 1 /\ magnitude x <= E + 54.
Proof.
  intros Hr ->. cbn [magnitude].
  inversion Hr as [|m' Hm Hb|m' Hc Hm Hb|]; subst.
  - apply bounded_canonical in Hb. lia.
  - apply bounded_canonical in Hb. lia.
Qed.

(** The conversion of an unsigned 64-bit integer that is not zero: a
    positive finite number, between 1 and 2^64. *)
Lemma float64_uint64 (n : Z) :
  0 < n <= maxUint64 ->
  exists m e, float64 n = S754_finite false m e /\
              bounded prec emax m e = true /\
              1 <= Zdigits2 (Zpos m) + e <= 65.
Proof.
  intros Hn. unfold float64.
  destruct n as [|p|p]; try lia. cbn [binary_normalize].
  pose proof (binary_round_rounded false p 0) as Hr. cbv zeta in Hr.
  pose proof (binary_round_overflow false false p 0) as Hov.
  pose proof (binary_round_positive p 0 ltac:(lia)) as Hpos.
  destruct (Zdigits2_bounds (Zpos p) ltac:(lia)) as (Hd1 & Hlo & Hhi).
  assert (Hd : Zdigits2 (Zpos p) <= 64).
  { apply Zdigits2_le; try lia. unfold maxUint64 in Hn. lia. }
  rewrite Z.add_0_r in *.
  set (d := Zdigits2 (Zpos p)) in *.
  assert (HE : fexp d = d - 53) by (rewrite fexp_eq; lia).
  rewrite HE in *.
  destruct (binary_round prec emax false p 0) as [s|[]| |[] m e] eqn:Eb;
    try discriminate.
  { specialize (Hov eq_refl). lia. }
  exists m, e. split; [reflexivity|].
  inversion Hr as [|m' Hm Hb|m' Hc Hm Hb|]; subst.
  - split; [assumption|].
    pose proof (bounded_canonical _ _ Hb) as (Hdm & Hem & Hcn). lia.
  - split; [assumption|].
    pose proof (bounded_canonical _ _ Hb) as (Hdm & Hem & Hcn). lia.
Qed.

(** A finite number divided by itself is 1. *)
Lemma fdiv_self (s : bool) (m : positive) (e : Z) :
  fdiv (S754_finite s m e) (S754_finite s m e) = one.
Proof.
  unfold fdiv, SFdiv, SFdiv_core_binary.
  replace (Zdigits2 (Zpos m) + e - (Zdigits2 (Zpos m) + e)) with 0 by lia.
  replace (e - e) with 0 by lia.
  change (Z.min (fexp 0) 0) with (-53). change (0 - -53) with 53.
  cbv iota beta.
  rewrite Z.shiftl_mul_pow2 by lia.
  assert (Hdiv : Z.div_eucl (Zpos m * 2 ^ 53) (Zpos m) = (2 ^ 53, 0)).
  { pose proof (Z.div_eucl_eq (Zpos m * 2 ^ 53) (Zpos m) ltac:(lia)) as Heq.
    pose proof (Z.mod_pos_bound (Zpos m * 2 ^ 53) (Zpos m) ltac:(lia)) as Hmod.
    unfold Z.modulo in Hmod.
    destruct (Z.div_eucl (Zpos m * 2 ^ 53) (Zpos m)) as [q r].
    assert (q = 2 ^ 53) by nia. f_equal; nia. }
  rewrite Hdiv.
  assert (Hl : new_location (Zpos m) 0 = loc_Exact).
  { unfold new_location. destruct (Z.even (Zpos m)); reflexivity. }
  rewrite Hl. destruct s; vm_compute; reflexivity.
Qed.

End Binary64Range.

Section PercentageRange.

Local Abbreviation fexp := (SpecFloat.fexp prec emax).

Lemma Zdigits2_mul_le (a b : Z) :
  0 < a -> 0 < b -> Zdigits2 (a * b) <= Zdigits2 a + Zdigits2 b.
Proof.
  intros Ha Hb.
  destruct (Zdigits2_bounds a Ha) as (Ha1 & _ & Hah).
  destruct (Zdigits2_bounds b Hb) as (Hb1 & _ & Hbh).
  apply Zdigits2_le; [nia|lia|].
  rewrite Z.pow_add_r by lia. nia.
Qed.

(** The quotient of [SFdiv_core_binary] has its leading bit at most one
    position above the difference of the positions of the operands'. *)
Lemma SFdiv_core_binary_magnitude (mx my : positive) (ex ey : Z) :
  let '(q, e', _) := SFdiv_core_binary prec emax (Zpos mx) ex (Zpos my) ey in
  Zdigits2 q + e' <=
    Z.max (Zdigits2 (Zpos mx) + ex - (Zdigits2 (Zpos my) + ey) + 1) e' /\
  e' <= fexp (Zdigits2 (Zpos mx) + ex - (Zdigits2 (Zpos my) + ey)).
Proof.
  unfold SFdiv_core_binary.
  set (d1 := Zdigits2 (Zpos mx)). set (d2 := Zdigits2 (Zpos my)).
  set (e' := Z.min (fexp (d1 + ex - (d2 + ey))) (ex - ey)).
  set (s := ex - ey - e').
  assert (Hs : 0 <= s) by (subst s e'; lia).
  set (m' := match s with
             | 0 => Zpos mx
             | Zpos _ => Z.shiftl (Zpos mx) s
             | Zneg _ => 0
             end).
  assert (Hm' : m' = Zpos mx * 2 ^ s).
  { subst m'. destruct s as [|p|p] eqn:Es; try lia.
    apply Z.shiftl_mul_pow2. lia. }
  pose proof (Z.div_eucl_eq m' (Zpos my) ltac:(lia)) as Heq.
  pose proof (Z.mod_pos_bound m' (Zpos my) ltac:(lia)) as Hmod.
  unfold Z.modulo in Hmod.
  destruct (Z.div_eucl m' (Zpos my)) as [q r] eqn:Ediv.
  assert (Hq : q = m' / Zpos my) by (unfold Z.div; now rewrite Ediv).
  assert (Hps : 0 < 2 ^ s) by (apply Z.pow_pos_nonneg; lia).
  assert (Hq0 : 0 <= q) by (rewrite Hq; apply Z.div_pos; nia).
  destruct (Zdigits2_bounds (Zpos mx) ltac:(lia)) as (Hd1 & Hl1 & Hh1).
  destruct (Zdigits2_bounds (Zpos my) ltac:(lia)) as (Hd2 & Hl2 & Hh2).
  fold d1 in Hd1, Hl1, Hh1. fold d2 in Hd2, Hl2, Hh2.
  split; [|subst e'; lia].
  destruct (Z.le_gt_cases (d1 + s - d2 + 1) 0) as [Hn|Hp].
  - (* the quotient is zero *)
    assert (Hlt : m' < Zpos my).
    { rewrite Hm'. apply Z.lt_le_trans with (2 ^ (d1 + s)).
      - rewrite Z.pow_add_r by lia. nia.
      - apply Z.le_trans with (2 ^ (d2 - 1)); [|lia].
        apply Z.pow_le_mono_r; lia. }
    assert (Hz : q = 0) by (rewrite Hq; apply Z.div_small; lia).
    rewrite Hz. cbn [Zdigits2]. lia.
  - assert (Hdq : Zdigits2 q <= d1 + s - d2 + 1).
    { apply Zdigits2_le; [lia|lia|].
      rewrite Hq. apply Z.div_lt_upper_bound; [lia|].
      rewrite Hm'.
      apply Z.lt_le_trans with (2 ^ d1 * 2 ^ s); [nia|].
      apply Z.le_trans with (2 ^ (d2 - 1) * 2 ^ (d1 + s - d2 + 1)).
      - rewrite <- !Z.pow_add_r by lia. apply Z.pow_le_mono_r; lia.
      - apply Z.mul_le_mono_nonneg_r; [apply Z.pow_nonneg|]; lia. }
    subst s. lia.
Qed.

(** The quotient of two finite numbers whose leading bits are at most
    64 positions apart is finite, and so is its product with 100. *)
Lemma fdiv_fmul_finite (mx my : positive) (ex ey : Z) :
  bounded prec emax mx ex = true ->
  bounded prec emax my ey = true ->
  1 <= Zdigits2 (Zpos mx) + ex <= 65 ->
  1 <= Zdigits2 (Zpos my) + ey <= 65 ->
  let p := fmul (fdiv (S754_finite false mx ex) (S754_finite false my ey)) hundred in
  finite_float p = true /\ nonneg p = true.
Proof.
  intros Hbx Hby Hx Hy p. subst p.
  pose proof (fdiv_valid (S754_finite false mx ex) (S754_finite false my ey) Hbx Hby)
    as Hvq.
  unfold fdiv, SFdiv in *.
  pose proof (SFdiv_core_binary_spec mx my ex ey) as Hq.
  pose proof (SFdiv_core_binary_magnitude mx my ex ey) as Hmag.
  destruct (SFdiv_core_binary prec emax (Zpos mx) ex (Zpos my) ey) as [[q e'] l] eqn:Ec.
  destruct Hq as [Hq He]. destruct Hmag as [Hmag He'].
  rewrite fexp_eq in He'.
  pose proof (binary_round_aux_rounded false q e' l Hq He) as Hr.
  pose proof (binary_round_aux_overflow false false q e' l Hq He) as Hov.
  cbn [xorb] in *.
  set (E := fexp (Zdigits2 q + e')) in *.
  assert (HE : E <= 12) by (subst E; rewrite fexp_eq; lia).
  destruct (binary_round_aux prec emax false q e' l) as [s|s| |s mr er] eqn:Eq.
  - inversion Hr; subst. split; reflexivity.
  - inversion Hr; subst. specialize (Hov eq_refl). lia.
  - inversion Hr.
  - assert (s = false) by (inversion Hr; reflexivity). subst s.
    destruct (rounded_magnitude _ _ _ _ mr er Hr eq_refl) as [Her Hmr].
    cbn [magnitude] in Hmr.
    cbn [valid valid_binary] in Hvq.
    apply bounded_canonical in Hvq as (Hdr & Her' & Hnr).
    unfold fmul, SFmul, hundred. cbn [xorb].
    set (mh := 7036874417766400%positive).
    assert (Hdh : Zdigits2 (Zpos mh) = 53) by reflexivity.
    pose proof (Zdigits2_mul (Zpos mr) (Zpos mh) ltac:(lia) ltac:(lia)) as Hlo.
    pose proof (Zdigits2_mul_le (Zpos mr) (Zpos mh) ltac:(lia) ltac:(lia)) as Hhi.
    change (Zpos mr * Zpos mh) with (Zpos (mr * mh)) in Hlo, Hhi.
    assert (Hpre : er + -46 <= fexp (Zdigits2 (Zpos (mr * mh)) + (er + -46)))
      by (rewrite fexp_eq; lia).
    pose proof (binary_round_aux_rounded false (Zpos (mr * mh)) (er + -46) loc_Exact
                  ltac:(lia) Hpre) as Hr2.
    pose proof (binary_round_aux_overflow false false (Zpos (mr * mh)) (er + -46)
                  loc_Exact ltac:(lia) Hpre) as Hov2.
    destruct (binary_round_aux prec emax false (Zpos (mr * mh)) (er + -46) loc_Exact)
      as [s|s| |s m2 e2].
    + inversion Hr2; subst. split; reflexivity.
    + inversion Hr2; subst. specialize (Hov2 eq_refl).
      rewrite fexp_eq in Hov2. lia.
    + inversion Hr2.
    + inversion Hr2; subst; split; reflexivity.
Qed.

End PercentageRange.

(** Nothing relayed: the percentage is zero. *)
Lemma percentage_zero (r : prometheusProgressReader) :
  0 < total r -> percentage (at_count r 0) = fzero.
Proof.
  intros Ht. unfold percentage. cbn [at_count counting Current total].
  change (float64 0) with (S754_zero false).
  assert (Hpos : positive_float (float64 (total r)) = true).
  { unfold float64. destruct (total r) as [|p|p]; try lia.
    apply binary_round_positive. lia. }
  destruct (float64 (total r)) as [[]|[]| |[] m e]; try discriminate; reflexivity.
Qed.

(** X14: when nothing has been relayed yet the percentage is zero, and a tick
    adds nothing: it reads the counter, leaves the published value as
    it is and logs 0. *)
Theorem tick_before_first_byte (r : prometheusProgressReader) (st : state) :
  counter_ok st = true ->
  0 < total r ->
  let tick := updateProgress (at_count r 0) st in
  percentage (at_count r 0) = fzero /\
  published (snd tick) = published st /\
  trace (snd tick) =
    trace st ++ [EvMetricWrite (ownerUID st); EvLog (Some 1) (LogProgress fzero)].
Proof.
  intros Hok Ht tick.
  pose proof (percentage_zero r Ht) as Hp.
  split; [exact Hp|].
  destruct (updateProgress_counter (at_count r 0) st Hok) as (_ & Hown & _ & Hpub).
  pose proof (updateProgress_trace (at_count r 0) st Hok) as Htr.
  fold tick in Hpub, Hown, Htr.
  assert (Hnlt : SFltb (published st) fzero = false).
  { destruct (published_ok st Hok) as [_ Hn].
    destruct (published st) as [[]|[]| |[] m e]; try discriminate; reflexivity. }
  rewrite Hp, Hnlt, andb_false_r in Hpub.
  split; [now rewrite !published_owner_counter, Hpub|].
  rewrite Htr. unfold tick_events. cbn [total at_count].
  destruct (Z.ltb_spec 0 (total r)); [|lia].
  now rewrite Hp, Hnlt.
Qed.

Lemma tick_before_first_byte_witness :
  let st := snd (init (initial sample_env)) in
  let r := payload_reader 1024 [] in
  let tick := updateProgress (at_count r 0) st in
  percentage (at_count r 0) = fzero /\
  published (snd tick) = published st /\
  trace (snd tick) =
    trace st ++ [EvMetricWrite (ownerUID st); EvLog (Some 1) (LogProgress fzero)].
Proof.
  intros st r.
  apply (tick_before_first_byte r st); [vm_compute; reflexivity|].
  cbn. lia.
Defined.

(** X15: when the count has reached the total, a total that is not zero, the
    percentage is exactly 100. *)
Theorem percentage_of_complete_relay (r : prometheusProgressReader) :
  0 < total r <= maxUint64 ->
  Current (counting r) = total r ->
  percentage r = hundred.
Proof.
  intros Ht Hc. unfold percentage. rewrite Hc.
  destruct (float64_uint64 (total r) Ht) as (m & e & -> & _).
  rewrite fdiv_self. vm_compute. reflexivity.
Qed.

Lemma percentage_of_complete_relay_witness :
  percentage (at_count (payload_reader 1000 []) 1000) = hundred.
Proof.
  apply percentage_of_complete_relay; [|reflexivity].
  cbn. unfold maxUint64. lia.
Defined.

(** X16: for a count and a total that are unsigned 64-bit integers, the total
    not zero, the percentage is a finite number that is not negative:
    never NaN, never infinite. *)
Theorem percentage_is_finite (r : prometheusProgressReader) :
  0 <= Current (counting r) <= maxUint64 ->
  0 < total r <= maxUint64 ->
  finite_float (percentage r) = true /\
  nonneg (percentage r) = true /\
  valid (percentage r) = true.
Proof.
  intros Hc Ht.
  split; [|split; [|apply percentage_valid]].
  all: unfold percentage.
  all: destruct (float64_uint64 (total r) Ht) as (my & ey & -> & Hby & Hy).
  all: destruct (Z.eq_dec (Current (counting r)) 0) as [->|Hne]; [reflexivity|].
  all: destruct (float64_uint64 (Current (counting r)) ltac:(lia))
         as (mx & ex & -> & Hbx & Hx).
  all: now apply fdiv_fmul_finite.
Qed.

Lemma percentage_is_finite_witness :
  let r := at_count (payload_reader 3 []) 18446744073709551615 in
  finite_float (percentage r) = true /\
  nonneg (percentage r) = true /\
  valid (percentage r) = true.
Proof.
  intros r. apply (percentage_is_finite r); cbn; unfold maxUint64; lia.
Defined.

(** ** The progress reader between the file and the writer *)

Section Relay.

Context {R : Type} `{io_Reader R}.

(** Draining through the counting reader is draining the stream it
    decorates, whatever that stream does, with the bytes counted. *)
Lemma drain_CountingReader (bufs : list nat) : forall r : CountingReader R,
  0 <= Current r <= maxUint64 ->
  drain bufs r =
    (fst (drain bufs (Reader r)),
     {| Reader := snd (drain bufs (Reader r));
        Current := wrap64 (Current r
                           + Z.of_nat (length (fst (fst (drain bufs (Reader r)))))) |}).
Proof.
  induction bufs as [|cap bufs IH]; intros [r c] Hc; cbn [Reader Current] in *.
  - cbn. rewrite Z.add_0_r. unfold wrap64, maxUint64 in *.
    now rewrite Z.mod_small by lia.
  - cbn [drain]. rewrite CountingReader_Read_spec. cbn [Reader Current].
    destruct (Read r cap) as [[bs [err|]] r']; cbn [fst snd]; [reflexivity|].
    rewrite IH; cbn [Reader Current].
    + destruct (drain bufs r') as [[rest err'] r'']. cbn [fst snd].
      now rewrite wrap64_add_l, length_app, Nat2Z.inj_add, Z.add_assoc.
    + unfold wrap64, maxUint64.
      pose proof (Z.mod_pos_bound (c + Z.of_nat (length bs)) (2 ^ 64) ltac:(lia)). lia.
Qed.

End Relay.

(** The promoted [Read] keeps the total. *)
Lemma drain_prometheusProgressReader (bufs : list nat) :
  forall r : prometheusProgressReader,
  drain bufs r =
    (fst (drain bufs (counting r)),
     {| counting := snd (drain bufs (counting r)); total := total r |}).
Proof.
  induction bufs as [|cap bufs IH]; intros [c t]; cbn [counting total]; [reflexivity|].
  cbn [drain].
  unfold Read at 1, prometheusProgressReader_Reader, prometheusProgressReader_Read.
  cbn [counting total].
  destruct (Read c cap) as [[bs [err|]] c']; [reflexivity|].
  rewrite IH. cbn [counting total].
  now destruct (drain bufs c') as [[rest err'] c''].
Qed.

(** X18: the progress reader is transparent to the writer, whatever the file
    does and however the writer reads (short reads, errors in the
    middle, a writer that stops early): the writer gets the bytes and the
    error it would get from the file, the file is left where a direct
    read would leave it, the total is untouched, and the count has
    advanced by the number of bytes handed over, modulo [2^64].
    [util.CountingReader] is modelled from the spec. *)
Theorem progress_reader_is_transparent (bufs : list nat) (r : prometheusProgressReader) :
  0 <= Current (counting r) <= maxUint64 ->
  let direct := drain bufs (Reader (counting r)) in
  let relayed := drain bufs r in
  fst relayed = fst direct /\
  Reader (counting (snd relayed)) = snd direct /\
  Current (counting (snd relayed)) =
    wrap64 (Current (counting r) + Z.of_nat (length (fst (fst direct)))) /\
  0 <= Current (counting (snd relayed)) <= maxUint64 /\
  total (snd relayed) = total r.
Proof.
  intros Hc direct relayed. subst direct relayed.
  rewrite drain_prometheusProgressReader, drain_CountingReader by assumption.
  cbn [fst snd counting total Reader Current].
  repeat apply conj; try reflexivity.
  all: unfold wrap64, maxUint64;
    match goal with |- context [?a mod 2 ^ 64] =>
      pose proof (Z.mod_pos_bound a (2 ^ 64) ltac:(lia)) end; lia.
Qed.

Lemma progress_reader_is_transparent_witness :
  let r := payload_reader 1024
             [Data (replicate 5 "a"%byte); Fail (ErrOS "broken pipe");
              Data (replicate 7 "b"%byte)] in
  let direct := drain [2%nat; 0%nat; 8%nat; 8%nat] (Reader (counting r)) in
  let relayed := drain [2%nat; 0%nat; 8%nat; 8%nat] r in
  fst relayed = fst direct /\
  Reader (counting (snd relayed)) = snd direct /\
  Current (counting (snd relayed)) =
    wrap64 (Current (counting r) + Z.of_nat (length (fst (fst direct)))) /\
  0 <= Current (counting (snd relayed)) <= maxUint64 /\
  total (snd relayed) = total r.
Proof.
  intros r.
  apply (progress_reader_is_transparent [2%nat; 0%nat; 8%nat; 8%nat] r).
  vm_compute. split; discriminate.
Defined.

(** ** Rounding to nearest, and the percentage of a partial relay *)

Section Nearest.

Local Abbreviation fexp := (SpecFloat.fexp prec emax).

Lemma iter_pos_nat {A : Type} (f : A -> A) (p : positive) : forall x : A,
  SpecFloat.iter_pos f p x = Nat.iter (Pos.to_nat p) f x.
Proof.
  induction p as [p IH|p IH|]; intros x; cbn [SpecFloat.iter_pos].
  - rewrite !IH, Pos2Nat.inj_xI, <- Nat.iter_add.
    replace (S (2 * Pos.to_nat p)) with (S (Pos.to_nat p + Pos.to_nat p)) by lia.
    now rewrite Nat.iter_succ_r.
  - rewrite !IH, Pos2Nat.inj_xO, <- Nat.iter_add.
    f_equal. lia.
  - reflexivity.
Qed.

Lemma shr_1_spec (m : Z) (r s : bool) :
  0 <= m ->
  shr_1 {| shr_m := m; shr_r := r; shr_s := s |} =
    {| shr_m := m / 2; shr_r := Z.odd m; shr_s := r || s |}.
Proof.
  intros Hm. rewrite <- Z.div2_div.
  destruct m as [|[p|p|]|p]; try lia; reflexivity.
Qed.

(** The bits a shift by [n + 1] positions keeps of what it drops: the
    last bit dropped, and whether any bit before it was set. *)
Lemma iter_shr_1_exact (n : nat) (m : Z) :
  0 <= m ->
  Nat.iter (S n) shr_1 {| shr_m := m; shr_r := false; shr_s := false |} =
    {| shr_m := m / 2 ^ Z.of_nat (S n);
       shr_r := Z.testbit m (Z.of_nat n);
       shr_s := negb (m mod 2 ^ Z.of_nat n =? 0) |}.
Proof.
  intros Hm. induction n as [|n IH].
  - cbn [Nat.iter]. rewrite shr_1_spec by assumption.
    change (2 ^ Z.of_nat 1) with 2. change (Z.of_nat 0) with 0.
    now rewrite Z.bit0_odd, Z.pow_0_r, Z.mod_1_r.
  - rewrite Nat.iter_succ, IH.
    assert (Hp : 0 < 2 ^ Z.of_nat (S n)) by (apply Z.pow_pos_nonneg; lia).
    assert (Hp' : 0 < 2 ^ Z.of_nat n) by (apply Z.pow_pos_nonneg; lia).
    rewrite shr_1_spec by (apply Z.div_pos; lia).
    f_equal.
    + rewrite Z.div_div by lia.
      rewrite (Nat2Z.inj_succ (S n)), Z.pow_succ_r by lia. f_equal. lia.
    + rewrite Z.testbit_odd, Z.shiftr_div_pow2 by lia. reflexivity.
    + rewrite (Nat2Z.inj_succ n), Z.pow_succ_r by lia.
      rewrite (Z.mul_comm 2), Z.rem_mul_r by lia.
      pose proof (Z.testbit_spec' m (Z.of_nat n) ltac:(lia)) as Hb.
      rewrite <- Hb.
      pose proof (Z.mod_pos_bound m (2 ^ Z.of_nat n) ltac:(lia)) as Hr.
      destruct (Z.testbit m (Z.of_nat n)); cbn [Z.b2z orb].
      * symmetry. apply negb_true_iff, Z.eqb_neq. lia.
      * now rewrite Z.mul_0_r, Z.add_0_r.
Qed.

(** What [shr_fexp] and [round_nearest_even] make of an exact mantissa. *)
Lemma shr_fexp_nearest (m e : Z) :
  0 <= m ->
  e <= fexp (Zdigits2 m + e) ->
  let mrs := fst (shr_fexp prec emax m e loc_Exact) in
  round_nearest_even (shr_m mrs) (loc_of_shr_record mrs) =
    rne m (fexp (Zdigits2 m + e) - e).
Proof.
  intros Hm He mrs. subst mrs. unfold shr_fexp, shr, rne.
  destruct (fexp (Zdigits2 m + e) - e) as [|k|k] eqn:Ek; try lia; cbn [fst].
  - cbn [shr_record_of_loc loc_of_shr_record shr_m round_nearest_even].
    rewrite Z.pow_0_r, Z.mod_1_r, Z.div_1_r. reflexivity.
  - rewrite iter_pos_nat.
    destruct (Pos2Nat.is_succ k) as [n Hn]. rewrite Hn.
    cbn [shr_record_of_loc].
    rewrite iter_shr_1_exact by assumption.
    assert (Hk : Zpos k = Z.of_nat (S n)) by lia.
    rewrite Hk.
    assert (Hp' : 0 < 2 ^ Z.of_nat n) by (apply Z.pow_pos_nonneg; lia).
    assert (Hpow : 2 ^ Z.of_nat (S n) = 2 ^ Z.of_nat n * 2).
    { rewrite (Nat2Z.inj_succ n), Z.pow_succ_r by lia. lia. }
    assert (Hrem : m mod 2 ^ Z.of_nat (S n) =
                   m mod 2 ^ Z.of_nat n + 2 ^ Z.of_nat n * Z.b2z (Z.testbit m (Z.of_nat n))).
    { rewrite Hpow, Z.rem_mul_r by lia.
      now rewrite (Z.testbit_spec' m (Z.of_nat n)) by lia. }
    pose proof (Z.mod_pos_bound m (2 ^ Z.of_nat n) ltac:(lia)) as Hr.
    rewrite Hrem.
    cbn [shr_m loc_of_shr_record].
    destruct (Z.testbit m (Z.of_nat n)); cbn [Z.b2z];
      destruct (Z.eqb_spec (m mod 2 ^ Z.of_nat n) 0) as [H0|H0];
      cbn [negb round_nearest_even].
    + replace (2 * _ ?= _) with Eq; [reflexivity|].
      symmetry. apply Z.compare_eq_iff. lia.
    + replace (2 * _ ?= _) with Gt; [reflexivity|].
      symmetry. apply Z.compare_gt_iff. lia.
    + replace (2 * _ ?= _) with Lt; [reflexivity|].
      symmetry. apply Z.compare_lt_iff. lia.
    + replace (2 * _ ?= _) with Lt; [reflexivity|].
      symmetry. apply Z.compare_lt_iff. lia.
Qed.

Lemma rne_bounds (m k : Z) : m / 2 ^ k <= rne m k <= m / 2 ^ k + 1.
Proof.
  unfold rne. destruct (_ ?= _); [destruct (Z.even _)| |]; lia.
Qed.

Lemma rne_mono (m m' k : Z) : 0 <= k -> m <= m' -> rne m k <= rne m' k.
Proof.
  intros Hk Hm.
  assert (Hp : 0 < 2 ^ k) by (apply Z.pow_pos_nonneg; lia).
  pose proof (Z.div_le_mono m m' (2 ^ k) Hp Hm) as Hq.
  destruct (Z.eq_dec (m / 2 ^ k) (m' / 2 ^ k)) as [He|Hne].
  - pose proof (Z.div_mod m (2 ^ k) ltac:(lia)) as H1.
    pose proof (Z.div_mod m' (2 ^ k) ltac:(lia)) as H2.
    unfold rne. rewrite <- He.
    assert (Hrem : m mod 2 ^ k <= m' mod 2 ^ k) by nia.
    destruct (Z.compare_spec (2 * (m mod 2 ^ k)) (2 ^ k));
      destruct (Z.compare_spec (2 * (m' mod 2 ^ k)) (2 ^ k));
      try destruct (Z.even (m / 2 ^ k)); lia.
  - pose proof (rne_bounds m k). pose proof (rne_bounds m' k). lia.
Qed.

End Nearest.

Section NearestRound.

Local Abbreviation fexp := (SpecFloat.fexp prec emax).

(** [binary_round_aux] on an exact mantissa, below the overflow
    threshold: the mantissa rounded to nearest at the exponent [fexp]
    gives. *)
Lemma binary_round_aux_nearest (m e : Z) :
  0 <= m ->
  e <= fexp (Zdigits2 m + e) ->
  fexp (Zdigits2 m + e) < 971 ->
  binary_round_aux prec emax false m e loc_Exact =
    pack (rne m (fexp (Zdigits2 m + e) - e)) (fexp (Zdigits2 m + e)).
Proof.
  intros Hm He Hlt.
  destruct (truncated_mantissa m e Hm He) as (Hm1 & Hsub & HE).
  destruct (shr_fexp_spec m e loc_Exact Hm He) as [_ Hs2].
  pose proof (shr_fexp_nearest m e Hm He) as Hn. cbv zeta in Hn.
  pose proof (rne_bounds m (fexp (Zdigits2 m + e) - e)) as Hr.
  unfold binary_round_aux.
  destruct (shr_fexp prec emax m e loc_Exact) as [mrs' e'] eqn:E1.
  cbn [fst snd] in Hn, Hs2. subst e'. rewrite Hn.
  set (E := fexp (Zdigits2 m + e)) in *.
  set (m2 := rne m (E - e)) in *.
  assert (Hcase : (m2 = 0 /\ fexp (Zdigits2 m2 + E) = E) \/
                  (0 < m2 < 2 ^ 53 /\ fexp (Zdigits2 m2 + E) = E) \/
                  (m2 = 2 ^ 53 /\ fexp (Zdigits2 m2 + E) = E + 1)).
  { destruct (Z.eq_dec m2 0) as [H0|H0]; [left|right].
    - split; [assumption|]. rewrite H0. cbn [Zdigits2]. rewrite fexp_eq. lia.
    - destruct (Z.eq_dec m2 (2 ^ 53)) as [H53|H53]; [right|left].
      + split; [assumption|]. rewrite H53. change (Zdigits2 (2 ^ 53)) with 54.
        rewrite fexp_eq. lia.
      + split; [lia|].
        destruct (Z.le_gt_cases (2 ^ 52) m2) as [Hnm|Hs].
        * assert (Hd : Zdigits2 m2 = 53).
          { apply Z.le_antisymm.
            - apply Zdigits2_le; lia.
            - apply Zdigits2_ge; [lia|]. exact Hnm. }
          rewrite Hd, fexp_eq. lia.
        * assert (Hd : Zdigits2 m2 <= 52) by (apply Zdigits2_le; lia).
          pose proof (Zdigits2_nonneg m2).
          rewrite fexp_eq. lia. }
  destruct Hcase as [[H0 Hf]|[[Hpos Hf]|[H53 Hf]]].
  - destruct (shr_fexp_spec m2 E loc_Exact ltac:(lia) ltac:(lia)) as [Ht1 Ht2].
    destruct (shr_fexp prec emax m2 E loc_Exact) as [mrs'' e''].
    cbn [fst snd] in Ht1, Ht2.
    rewrite Ht1, Hf, Z.sub_diag, Z.div_1_r, H0. reflexivity.
  - destruct (shr_fexp_spec m2 E loc_Exact ltac:(lia) ltac:(lia)) as [Ht1 Ht2].
    destruct (shr_fexp prec emax m2 E loc_Exact) as [mrs'' e''].
    cbn [fst snd] in Ht1, Ht2.
    rewrite Ht1, Ht2, Hf, Z.sub_diag, Z.div_1_r.
    unfold pack.
    destruct m2 as [|p|p] eqn:Ep; try lia.
    change (emax - prec) with 971.
    destruct (Z.leb_spec E 971) as [Hle|Hgt]; [|lia].
    destruct (Z.eqb_spec (Zpos p) (2 ^ 53)); [lia|reflexivity].
  - destruct (shr_fexp_spec m2 E loc_Exact ltac:(lia) ltac:(lia)) as [Ht1 Ht2].
    destruct (shr_fexp prec emax m2 E loc_Exact) as [mrs'' e''].
    cbn [fst snd] in Ht1, Ht2.
    rewrite Ht1, Ht2, Hf, H53.
    replace (E + 1 - E) with 1 by lia.
    change (2 ^ 53 / 2 ^ 1) with (Zpos 4503599627370496).
    change (emax - prec) with 971.
    destruct (Z.leb_spec (E + 1) 971) as [Hle|Hgt]; [reflexivity|lia].
Qed.

(** The conversion of an unsigned 64-bit integer: the integer, brought
    to 53 bits, rounding to nearest when it has more. *)
Lemma float64_nearest (n : Z) :
  0 < n <= maxUint64 ->
  let E := Zdigits2 n - 53 in
  float64 n = pack (rne (n * 2 ^ (0 - Z.min 0 E)) (E - Z.min 0 E)) E.
Proof.
  intros Hn E. unfold float64.
  destruct n as [|p|p]; try lia. cbn [binary_normalize].
  destruct (Zdigits2_bounds (Zpos p) ltac:(lia)) as (Hd1 & Hlo & Hhi).
  assert (Hd : Zdigits2 (Zpos p) <= 64).
  { apply Zdigits2_le; try lia. unfold maxUint64 in Hn. lia. }
  assert (HE : fexp (Zdigits2 (Zpos p) + 0) = E).
  { rewrite fexp_eq. subst E. lia. }
  unfold binary_round.
  destruct (shl_align_spec p 0 (fexp (Zdigits2 (Zpos p) + 0))) as [Hm He].
  change (fexp (Zpos (digits2_pos p) + 0)) with (fexp (Zdigits2 (Zpos p) + 0)).
  rewrite HE in *.
  destruct (shl_align p 0 E) as [mz ez].
  cbn [fst snd] in Hm, He. subst ez.
  assert (Hp : 0 < 2 ^ (0 - Z.min 0 E)) by (apply Z.pow_pos_nonneg; lia).
  assert (Hdz : Zdigits2 (Zpos mz) + Z.min 0 E = Zdigits2 (Zpos p) + 0).
  { rewrite Hm, Zdigits2_mul_pow2 by lia. lia. }
  rewrite binary_round_aux_nearest; rewrite ?Hdz, ?HE; try lia.
  now rewrite Hm.
Qed.

End NearestRound.

Section AtMostHundred.

Local Abbreviation fexp := (SpecFloat.fexp prec emax).

Lemma pack_le (m2 E m2' E' : Z) :
  2 ^ 52 <= m2 <= 2 ^ 53 ->
  2 ^ 52 <= m2' <= 2 ^ 53 ->
  E < E' \/ (E = E' /\ m2 <= m2') ->
  SFleb (pack m2 E) (pack m2' E') = true.
Proof.
  intros H1 H2 Hle. unfold pack.
  destruct m2 as [|p|p]; try lia. destruct m2' as [|p'|p']; try lia.
  destruct (Z.eqb_spec (Zpos p) (2 ^ 53)), (Z.eqb_spec (Zpos p') (2 ^ 53));
    apply SFleb_finite; lia.
Qed.

(** The mantissa of a converted integer has 53 bits, or is [2^53]. *)
Lemma float64_mantissa (n : Z) :
  0 < n <= maxUint64 ->
  let E := Zdigits2 n - 53 in
  2 ^ 52 <= rne (n * 2 ^ (0 - Z.min 0 E)) (E - Z.min 0 E) <= 2 ^ 53.
Proof.
  intros Hn E.
  destruct (Zdigits2_bounds n ltac:(lia)) as (Hd1 & Hlo & Hhi).
  assert (Hd : Zdigits2 n <= 64).
  { apply Zdigits2_le; try lia. unfold maxUint64 in Hn. lia. }
  assert (Hp : 0 < 2 ^ (0 - Z.min 0 E)) by (apply Z.pow_pos_nonneg; lia).
  set (mz := n * 2 ^ (0 - Z.min 0 E)).
  assert (Hdz : Zdigits2 mz + Z.min 0 E = Zdigits2 n).
  { subst mz. rewrite Zdigits2_mul_pow2 by lia. lia. }
  assert (HE : fexp (Zdigits2 mz + Z.min 0 E) = E).
  { rewrite Hdz, fexp_eq. subst E. lia. }
  destruct (truncated_mantissa mz (Z.min 0 E) ltac:(subst mz; nia) ltac:(lia))
    as (Hm1 & Hsub & _).
  rewrite HE in Hm1, Hsub.
  pose proof (rne_bounds mz (E - Z.min 0 E)).
  assert (E <> -1074) by (subst E; lia).
  lia.
Qed.

(** The conversion of unsigned 64-bit integers keeps their order. *)
Lemma float64_mono (c t : Z) :
  0 < c <= t -> t <= maxUint64 ->
  SFleb (float64 c) (float64 t) = true.
Proof.
  intros Hc Ht.
  rewrite (float64_nearest c), (float64_nearest t) by lia.
  pose proof (float64_mantissa c ltac:(lia)) as Hmc.
  pose proof (float64_mantissa t ltac:(lia)) as Hmt.
  cbv zeta in *.
  pose proof (Zdigits2_mono c t ltac:(lia)) as Hd.
  apply pack_le; try assumption.
  destruct (Z.eq_dec (Zdigits2 c) (Zdigits2 t)) as [He|Hne]; [right|left; lia].
  rewrite He. split; [reflexivity|].
  set (E := Zdigits2 t - 53).
  assert (Hp : 0 < 2 ^ (0 - Z.min 0 E)) by (apply Z.pow_pos_nonneg; lia).
  apply rne_mono; [lia|nia].
Qed.

(** A quotient of two positive numbers in order is at most 1. *)
Lemma fdiv_le_one (ma mb : positive) (ea eb : Z) :
  bounded prec emax ma ea = true ->
  bounded prec emax mb eb = true ->
  SFleb (S754_finite false ma ea) (S754_finite false mb eb) = true ->
  let q := fdiv (S754_finite false ma ea) (S754_finite false mb eb) in
  SFleb q one = true /\ nonneg q = true /\ finite_float q = true.
Proof.
  intros Hba Hbb Hle q. subst q.
  apply SFleb_finite in Hle.
  destruct (Pos.eq_dec ma mb) as [Hm|Hm];
    [destruct (Z.eq_dec ea eb) as [He|He]; [subst; rewrite fdiv_self; repeat split|]|].
  all: assert (Hlt : ea < eb \/ (ea = eb /\ Zpos ma < Zpos mb))
         by (assert (Zpos ma = Zpos mb <-> ma = mb) by (split; congruence); lia).
  all: clear Hle Hm; try clear He.
  all: apply bounded_canonical in Hba as (Hda & Hea & Hna).
  all: apply bounded_canonical in Hbb as (Hdb & Heb & Hnb).
  all: destruct (Zdigits2_bounds (Zpos ma) ltac:(lia)) as (_ & Hla & Hha).
  all: destruct (Zdigits2_bounds (Zpos mb) ltac:(lia)) as (_ & Hlb & Hhb).
  all: assert (Hmag : Zdigits2 (Zpos ma) + ea <= Zdigits2 (Zpos mb) + eb)
         by (pose proof (Zdigits2_mono (Zpos ma) (Zpos mb)); lia).
  all: assert (Hval : Zpos ma < Zpos mb * 2 ^ (eb - ea))
         by (destruct Hlt as [Hlt|[Hlt Hmm]];
             [ assert (Hdb53 : Zdigits2 (Zpos mb) = 53) by lia;
               rewrite Hdb53 in Hlb;
               assert (Hp2 : 2 ^ 1 <= 2 ^ (eb - ea)) by (apply Z.pow_le_mono_r; lia);
               assert (Zpos ma < 2 ^ 53)
                 by (apply Z.lt_le_trans with (2 ^ Zdigits2 (Zpos ma));
                     [lia|apply Z.pow_le_mono_r; lia]);
               change (2 ^ (53 - 1)) with (2 ^ 52) in Hlb;
               change (2 ^ 1) with 2 in Hp2; nia
             | replace (eb - ea) with 0 by lia; lia ]).
  all: unfold fdiv, SFdiv.
  all: pose proof (SFdiv_core_binary_spec ma mb ea eb) as Hq.
  all: unfold SFdiv_core_binary in *.
  all: set (e' := Z.min (fexp (Zdigits2 (Zpos ma) + ea - (Zdigits2 (Zpos mb) + eb)))
                    (ea - eb)) in *.
  all: set (s := ea - eb - e') in *.
  all: assert (He' : e' <= -53) by (subst e'; rewrite fexp_eq; lia).
  all: assert (Hs : 0 <= s) by (subst s e'; lia).
  all: set (m' := match s with
                  | 0 => Zpos ma
                  | Zpos _ => Z.shiftl (Zpos ma) s
                  | Zneg _ => 0
                  end) in *.
  all: assert (Hm' : m' = Zpos ma * 2 ^ s)
         by (subst m'; destruct s as [|p|p] eqn:Es; try lia;
             apply Z.shiftl_mul_pow2; lia).
  all: assert (Hdiv : m' / Zpos mb < 2 ^ (- e'))
         by (apply Z.div_lt_upper_bound; [lia|]; rewrite Hm';
             assert (Hps : 0 < 2 ^ s) by (apply Z.pow_pos_nonneg; lia);
             replace (- e') with ((eb - ea) + s) by (subst s; lia);
             rewrite Z.pow_add_r by lia; nia).
  all: unfold Z.div in Hdiv.
  all: destruct (Z.div_eucl m' (Zpos mb)) as [q r].
  all: destruct Hq as [Hq0 Hqe].
  all: assert (Hdq : Zdigits2 q + e' <= 0)
         by (pose proof (Zdigits2_le q (- e') Hq0 ltac:(lia) Hdiv); lia).
  all: pose proof (binary_round_aux_rounded false q e' (new_location (Zpos mb) r)
                     Hq0 Hqe) as Hr.
  all: pose proof (binary_round_aux_overflow false false q e'
                     (new_location (Zpos mb) r) Hq0 Hqe) as Hov.
  all: assert (HE : fexp (Zdigits2 q + e') <= -53) by (rewrite fexp_eq; lia).
  all: cbn [xorb].
  all: destruct (binary_round_aux prec emax false q e' (new_location (Zpos mb) r))
         as [sg|sg| |sg m e] eqn:Eq.
  all: try (inversion Hr; subst; repeat split; fail).
  all: try (inversion Hr; subst; specialize (Hov eq_refl); lia).
  all: inversion Hr as [|m0 Hm0 Hb0|m0 Hc0 Hm0 Hb0|]; subst.
  all: split; [apply SFleb_finite; lia|split; reflexivity].
Qed.

(** The product of a number that is at most 1 with 100 is at most
    100. *)
Lemma fmul_le_hundred (q : spec_float) :
  valid q = true -> nonneg q = true -> finite_float q = true ->
  SFleb q one = true ->
  SFleb (fmul q hundred) hundred = true.
Proof.
  intros Hv Hn Hf Hle.
  destruct q as [[]|[]| |[] mr er]; try discriminate; [reflexivity|].
  cbn [valid valid_binary] in Hv.
  apply bounded_canonical in Hv as (Hdr & Her & Hnr).
  destruct (Zdigits2_bounds (Zpos mr) ltac:(lia)) as (_ & Hlr & Hhr).
  apply SFleb_finite in Hle.
  destruct (Z.eq_dec er (-52)) as [He|He].
  { assert (Hd : Zdigits2 (Zpos mr) = 53) by lia. rewrite Hd in Hlr.
    change (2 ^ (53 - 1)) with (Zpos 4503599627370496) in Hlr.
    assert (Hm : mr = 4503599627370496%positive) by lia.
    subst. vm_compute. reflexivity. }
  assert (Her' : er <= -53) by lia.
  assert (Hmr : Zpos mr < 2 ^ 53).
  { apply Z.lt_le_trans with (2 ^ Zdigits2 (Zpos mr)); [lia|].
    apply Z.pow_le_mono_r; lia. }
  unfold fmul, SFmul, hundred. cbn [xorb].
  set (mh := 7036874417766400%positive).
  assert (Hmh : Zpos mh = 7036874417766400) by reflexivity.
  assert (Hdh : Zdigits2 (Zpos mh) = 53) by reflexivity.
  pose proof (Zdigits2_mul (Zpos mr) (Zpos mh) ltac:(lia) ltac:(lia)) as Hlo.
  change (Zpos mr * Zpos mh) with (Zpos (mr * mh)) in Hlo.
  assert (Hpre : er + -46 <= fexp (Zdigits2 (Zpos (mr * mh)) + (er + -46)))
    by (rewrite fexp_eq; lia).
  assert (Hpow : 2 ^ 53 <= 2 ^ (- er)) by (apply Z.pow_le_mono_r; lia).
  assert (HP : Zpos (mr * mh) < Zpos mh * 2 ^ (- er)).
  { rewrite Pos2Z.inj_mul. nia. }
  assert (HdP : Zdigits2 (Zpos (mr * mh)) <= 53 - er).
  { apply Zdigits2_le; [lia|lia|].
    replace (53 - er) with (53 + - er) by lia. rewrite Z.pow_add_r by lia.
    assert (Zpos mh < 2 ^ 53) by (rewrite Hmh; reflexivity).
    nia. }
  pose proof (binary_round_aux_rounded false (Zpos (mr * mh)) (er + -46) loc_Exact
                ltac:(lia) Hpre) as Hr.
  pose proof (binary_round_aux_overflow false false (Zpos (mr * mh)) (er + -46)
                loc_Exact ltac:(lia) Hpre) as Hov.
  set (E := fexp (Zdigits2 (Zpos (mr * mh)) + (er + -46))) in *.
  assert (HE : E <= -46) by (subst E; rewrite fexp_eq; lia).
  assert (Hm1 : E = -46 ->
                Zpos (mr * mh) / 2 ^ (E - (er + -46)) + 1 <= Zpos mh).
  { intros ->. replace (-46 - (er + -46)) with (- er) by lia.
    assert (Zpos (mr * mh) / 2 ^ (- er) < Zpos mh); [|lia].
    apply Z.div_lt_upper_bound; [lia|]. lia. }
  destruct (binary_round_aux prec emax false (Zpos (mr * mh)) (er + -46) loc_Exact)
    as [sg|sg| |sg m e] eqn:Eq.
  - inversion Hr; subst. reflexivity.
  - inversion Hr; subst. specialize (Hov eq_refl). lia.
  - inversion Hr.
  - inversion Hr as [|m0 Hm0 Hb0|m0 Hc0 Hm0 Hb0|]; subst.
    + apply SFleb_finite.
      destruct (Z.eq_dec E (-46)) as [HE46|HE46]; [right|left; lia].
      specialize (Hm1 HE46). lia.
    + apply SFleb_finite.
      destruct (Z.eq_dec E (-46)) as [HE46|HE46].
      * specialize (Hm1 HE46). lia.
      * destruct (Z.eq_dec (E + 1) (-46)); [right|left; lia]. lia.
Qed.

End AtMostHundred.

(** While the count has not passed the total, the percentage is at most
    100. *)
Lemma percentage_le_hundred (r : prometheusProgressReader) :
  0 <= Current (counting r) <= total r ->
  0 < total r <= maxUint64 ->
  SFleb (percentage r) hundred = true.
Proof.
  intros Hc Ht.
  destruct (Z.eq_dec (Current (counting r)) 0) as [H0|H0].
  { replace r with (at_count r 0) by (destruct r as [[f c] t]; cbn in *; now subst).
    rewrite percentage_zero by (cbn; lia). reflexivity. }
  pose proof (float64_mono (Current (counting r)) (total r) ltac:(lia) ltac:(lia)) as Hm.
  unfold percentage.
  destruct (float64_uint64 (total r) Ht) as (mb & eb & Eb & Hbb & Hmb).
  destruct (float64_uint64 (Current (counting r)) ltac:(lia)) as (ma & ea & Ea & Hba & Hma).
  rewrite Ea, Eb in *.
  destruct (fdiv_le_one ma mb ea eb Hba Hbb Hm) as (Hq1 & Hqn & Hqf).
  pose proof (fdiv_valid (S754_finite false ma ea) (S754_finite false mb eb) Hba Hbb)
    as Hqv.
  now apply fmul_le_hundred.
Qed.

(** X17: while the count has not passed the total, the percentage lies
    between 0 and 100. *)
Theorem percentage_at_most_hundred (r : prometheusProgressReader) :
  0 <= Current (counting r) <= total r ->
  0 < total r <= maxUint64 ->
  SFleb fzero (percentage r) = true /\
  SFleb (percentage r) hundred = true.
Proof.
  intros Hc Ht. split; [|now apply percentage_le_hundred].
  destruct (Z.eq_dec (Current (counting r)) 0) as [H0|H0].
  { replace r with (at_count r 0) by (destruct r as [[f c] t]; cbn in *; now subst).
    rewrite percentage_zero by (cbn; lia). reflexivity. }
  unfold percentage.
  destruct (float64_uint64 (total r) Ht) as (mb & eb & -> & Hbb & Hmb).
  destruct (float64_uint64 (Current (counting r)) ltac:(lia)) as (ma & ea & -> & Hba & Hma).
  destruct (fdiv_fmul_finite ma mb ea eb Hba Hbb Hma Hmb) as [Hpf Hpn].
  destruct (fmul _ hundred) as [[]|[]| |[] mp ep]; try discriminate; reflexivity.
Qed.

Lemma percentage_at_most_hundred_witness :
  let r := at_count (payload_reader 18446744073709551615 []) 18446744073709551614 in
  SFleb fzero (percentage r) = true /\
  SFleb (percentage r) hundred = true.
Proof.
  intros r. apply (percentage_at_most_hundred r); cbn; unfold maxUint64; lia.
Defined.

(** ** Values counted in units of the last place *)

Section Units.

Local Abbreviation fexp := (SpecFloat.fexp prec emax).








End Units.

Section UnitsOrder.

Local Abbreviation fexp := (SpecFloat.fexp prec emax).








End UnitsOrder.

Section Within.

Local Abbreviation fexp := (SpecFloat.fexp prec emax).




End Within.

(** ** The discipline of the descriptors *)

Lemma descriptors_channel (t : list event) : forall (held : list nat) (most : nat),
  descriptors t held most = descriptors (channel_events t) held most.
Proof.
  induction t as [|ev t IH]; intros held most; [reflexivity|].
  destruct ev as [| | | | |p [k|err]|k| | | | | | | |]; cbn; try apply IH.
  - destruct (existsb (Nat.eqb k) held); [reflexivity|apply IH].
  - destruct (existsb (Nat.eqb k) held); [apply IH|reflexivity].
Qed.

(** X21: the discipline of the descriptors: in every run each [Close] is
    of a file that is open, no file is closed twice, never more than one
    file is open at once (the header file is closed before the payload
    file is opened), and the files open at the end are those the trace
    leaves open. *)
Theorem descriptor_discipline (e : env) :
  exists (held : list nat) (most : nat),
    descriptors (trace (snd (run e))) [] 0 = Some (held, most) /\
    (most <= 1)%nat /\
    (forall k, In k held <-> k ∈ open_files (snd (run e))).
Proof.
  rewrite descriptors_channel.
  by_paths e; channel_norm; unfold dispatch_event;
    repeat match goal with
      | |- context [IsNotExist ?x] => destruct (IsNotExist x)
      end;
    cbn; eexists _, _; (split; [reflexivity|]); (split; [lia|]);
    intros k; cbn; set_unfold; lia.
Qed.

(** ** The published value never decreases *)

Section Monotone.

Local Abbreviation fexp := (SpecFloat.fexp prec emax).




















End Monotone.






